(** * go-bitset: a shallow embedding of [bitset.go] (the 32-bit bitset)

    The Go type [uint32] is modelled as [Z] with the wrap-around written out
    ([u32]); a slice [[]uint32] is a [list Z]; an index expression [s[i]]
    that Go checks at run time is [index]/[store], which return [None] where
    Go panics with "index out of range".  Methods that mutate their receiver
    return the new receiver. *)

From Stdlib Require Import ZArith Lia Bool.
From stdpp Require Import base tactics option list numbers.

Local Open Scope Z_scope.

(** ** Machine arithmetic *)

Definition u32 (z : Z) : Z := z mod 2 ^ 32.

Definition MaxUint32 : Z := 4294967295.

Definition lWord : Z := 32.
Definition lLog2Word : Z := 5.
Definition allBits : Z := 0xffffffff.

(** [x >> k] on [uint32]. *)
Definition shr (x k : Z) : Z := Z.shiftr x k.

(** [x << k] on [uint32]: bits shifted past position 31 are lost. *)
Definition shl (x k : Z) : Z := u32 (Z.shiftl x k).

(** [^x] on [uint32]: exclusive or with the all-ones word. *)
Definition not32 (x : Z) : Z := Z.lxor x allBits.

(** [x &^ y] (and-not). *)
Definition andnot (x y : Z) : Z := Z.ldiff x y.

Definition wordsNeeded (k : Z) : Z :=
  if k =? 0 then 1
  else if k =? MaxUint32 then shr MaxUint32 lLog2Word
  else shr (u32 (k + (lWord - 1))) lLog2Word.

(** ** Slices *)

(** [len(l)] converted to [uint32]. *)
Definition len (l : list Z) : Z := u32 (Z.of_nat (length l)).

(** [make([]uint32, k)]. *)
Definition make (k : Z) : list Z := replicate (Z.to_nat k) 0.

Definition in_range (l : list Z) (i : Z) : bool :=
  (0 <=? i) && (i <? Z.of_nat (length l)).

(** [l[i]] as a value: a run-time panic when [i] is out of range. *)
Definition index (l : list Z) (i : Z) : option Z :=
  if in_range l i then l !! Z.to_nat i else None.

(** [l[i] = w]. *)
Definition store (l : list Z) (i : Z) (w : Z) : option (list Z) :=
  if in_range l i then Some (<[Z.to_nat i := w]> l) else None.

(** [copy(dst, src)]: overwrites the first [min(len(dst), len(src))]
    elements of [dst]. *)
Definition copy (dst src : list Z) : list Z :=
  take (length dst) src ++ drop (length src) dst.

(** ** The bitset *)

Record Bitset : Type := mkBitset { n : Z; b : list Z }.

Definition New (k : Z) : Bitset := mkBitset k (make (wordsNeeded k)).

Definition Len (s : Bitset) : Z := n s.

(** The word index [i >> lLog2Word] and the mask [1 << (i & (lWord - 1))]. *)
Definition widx (i : Z) : Z := shr i lLog2Word.
Definition mask (i : Z) : Z := shl 1 (Z.land i (lWord - 1)).

Definition Test (s : Bitset) (i : Z) : option bool :=
  if n s <=? i then Some false
  else w ← index (b s) (widx i); Some (negb (Z.land w (mask i) =? 0)).

(** The growth branch of [Set], taken when [i >= b.n]. *)
Definition grow (s : Bitset) (i : Z) : Bitset :=
  let nsize := wordsNeeded (u32 (i + 1)) in
  let l := len (b s) in
  let bb := if l <? nsize then b s ++ make (nsize - l) else b s in
  mkBitset (u32 (i + 1)) bb.

Definition Set_ (s : Bitset) (i : Z) : option Bitset :=
  let s1 := if n s <=? i then grow s i else s in
  w ← index (b s1) (widx i);
  bb ← store (b s1) (widx i) (Z.lor w (mask i));
  Some (mkBitset (n s1) bb).

Definition Clear (s : Bitset) (i : Z) : option Bitset :=
  if n s <=? i then Some s
  else
    w ← index (b s) (widx i);
    bb ← store (b s) (widx i) (andnot w (mask i));
    Some (mkBitset (n s) bb).

Definition Flip (s : Bitset) (i : Z) : option Bitset :=
  s1 ← (if n s <=? i then Set_ s i else Some s);
  w ← index (b s1) (widx i);
  bb ← store (b s1) (widx i) (Z.lxor w (mask i));
  Some (mkBitset (n s1) bb).

Definition ClearAll (s : Bitset) : Bitset :=
  mkBitset (n s) (replicate (length (b s)) 0).

Definition wordCount (s : Bitset) : Z := wordsNeeded (n s).

Definition Clone (s : Bitset) : Bitset :=
  let c := New (n s) in mkBitset (n c) (copy (b c) (b s)).

(** [b.Copy(c)]: the destination [c] is the one that changes; the result is
    the new destination and the returned count. *)
Definition Copy (s c : Bitset) : Bitset * Z :=
  (mkBitset (n c) (copy (b c) (b s)), if n s <? n c then n s else n c).

(** ** Population count *)

Definition m1 : Z := 0x55555555.
Definition m2 : Z := 0x33333333.
Definition m4 : Z := 0x0f0f0f0f.

Definition popCountUint32 (x : Z) : Z :=
  let x := u32 (x - Z.land (shr x 1) m1) in
  let x := u32 (Z.land x m2 + Z.land (shr x 2) m2) in
  let x := Z.land (u32 (x + shr x 4)) m4 in
  let x := u32 (x + shr x 8) in
  let x := u32 (x + shr x 16) in
  Z.land x 0x7f.

Definition Count (s : Bitset) : Z :=
  fold_left (fun sum w => u32 (sum + popCountUint32 w)) (b s) 0.

(** ** Loops over the words *)

(** [for i, w := range ws { res[i] = f(i, w) }], entered at index [i]. *)
Fixpoint range_loop (f : Z -> Z -> option Z) (ws : list Z) (i : Z)
    (res : list Z) : option (list Z) :=
  match ws with
  | [] => Some res
  | w :: ws' =>
      v ← f i w;
      res' ← store res i v;
      range_loop f ws' (i + 1) res'
  end.

(** [for i := ...; i < l; i++ { if i >= szl { break }; res[i] = f(i) }],
    entered at index [i] with at most [count] iterations left. *)
Fixpoint for_loop (f : Z -> option Z) (count : nat) (i l szl : Z)
    (res : list Z) : option (list Z) :=
  match count with
  | O => Some res
  | S count' =>
      if i <? l then
        if szl <=? i then Some res
        else
          v ← f i;
          res' ← store res i v;
          for_loop f count' (u32 (i + 1)) l szl res'
      else Some res
  end.

(** ** Comparison *)

Fixpoint Equal_loop (ws : list Z) (p : Z) (cw : list Z) : option bool :=
  match ws with
  | [] => Some true
  | v :: ws' =>
      x ← index cw p;
      if negb (x =? v) then Some false else Equal_loop ws' (p + 1) cw
  end.

Definition Equal (s c : Bitset) : option bool :=
  if negb (n s =? n c) then Some false else Equal_loop (b s) 0 (b c).

(** ** Set algebra *)

Definition Difference (s ob : Bitset) : option Bitset :=
  let result := Clone s in
  let szl := wordCount ob in
  let l := len (b s) in
  bb ← for_loop (fun i => x ← index (b s) i; y ← index (b ob) i; Some (andnot x y))
         (Z.to_nat l) 0 l szl (b result);
  Some (mkBitset (n result) bb).

Definition sortByLength (s t : Bitset) : Bitset * Bitset :=
  if n s <=? n t then (s, t) else (t, s).

Definition Intersection (s0 ob0 : Bitset) : option Bitset :=
  let '(s, ob) := sortByLength s0 ob0 in
  let result := New (n s) in
  bb ← range_loop (fun i w => y ← index (b ob) i; Some (Z.land w y)) (b s) 0 (b result);
  Some (mkBitset (n result) bb).

Definition Union (s0 ob0 : Bitset) : option Bitset :=
  let '(s, ob) := sortByLength s0 ob0 in
  let result := Clone ob in
  let szl := wordCount ob in
  let l := len (b s) in
  bb ← for_loop (fun i => x ← index (b s) i; y ← index (b ob) i; Some (Z.lor x y))
         (Z.to_nat l) 0 l szl (b result);
  Some (mkBitset (n result) bb).

Definition SymmetricDifference (s0 ob0 : Bitset) : option Bitset :=
  let '(s, ob) := sortByLength s0 ob0 in
  let result := Clone ob in
  let szl := wordCount s in
  let l := len (b s) in
  bb ← for_loop (fun i => x ← index (b s) i; y ← index (b ob) i; Some (Z.lxor x y))
         (Z.to_nat l) 0 l szl (b result);
  Some (mkBitset (n result) bb).

(** ** Complement *)

Definition isEven (s : Bitset) : bool := n s mod lWord =? 0.

Definition cleanLastWord (s : Bitset) : option Bitset :=
  if negb (isEven s) then
    let k := u32 (wordsNeeded (n s) - 1) in
    w ← index (b s) k;
    bb ← store (b s) k (Z.land w (shr allBits (lWord - n s mod lWord)));
    Some (mkBitset (n s) bb)
  else Some s.

(** [String] reads the words from index [wordsNeeded(b.n) - 1] down to 0;
    the rendering of a word is left out and the words read are returned.
    The loop counter is an [int], taken to be 64 bits wide, so that the
    start index is never negative.  When the first read is in range the
    loop runs at most [len(b.b)] times before the counter goes below 0. *)
Fixpoint String_loop (count : nat) (i : Z) (l acc : list Z) : option (list Z) :=
  match count with
  | O => Some acc
  | S count' =>
      if 0 <=? i then w ← index l i; String_loop count' (i - 1) l (acc ++ [w])
      else Some acc
  end.

Definition String_ (s : Bitset) : option (list Z) :=
  String_loop (S (length (b s))) (u32 (wordsNeeded (n s) - 1)) (b s) [].

Definition Complement (s : Bitset) : option Bitset :=
  _ ← String_ s;
  let result := New (n s) in
  bb ← range_loop (fun _ w => Some (not32 w)) (b s) 0 (b result);
  cleanLastWord (mkBitset (n result) bb).

(** ** Aggregate queries *)

Definition All (s : Bitset) : bool := Count s =? n s.

Definition None_ (s : Bitset) : bool := forallb (fun w => negb (0 <? w)) (b s).

Definition Any (s : Bitset) : bool := negb (None_ s).

(** * Specification vocabulary *)

(** The greatest length whose word count [wordsNeeded] computes without
    wrapping: [2^32 - 32]. *)
Definition maxLen : Z := 4294967264.

(** The values of [uint32]. *)
Definition is_word (w : Z) : Prop := 0 <= w < 2 ^ 32.

(** The representation invariant: a well-formed bitset has a length in the
    range where [wordsNeeded] does not wrap, as many words as
    [wordsNeeded] asks for, and words that are [uint32] values. *)
Record wf (s : Bitset) : Prop := mk_wf {
  wf_n : 0 <= n s <= maxLen;
  wf_len : Z.of_nat (length (b s)) = wordsNeeded (n s);
  wf_words : Forall is_word (b s)
}.

(** The bit stored at logical position [j] of a word sequence, whether or
    not [j] is below the length of the bitset. *)
Definition getbit (l : list Z) (j : Z) : bool :=
  match index l (widx j) with
  | Some w => Z.testbit w (j mod 32)
  | None => false
  end.

(** The zero-padding invariant: no bit is stored at a position at or past
    the length. *)
Definition padding_zero (s : Bitset) : Prop :=
  forall j, n s <= j -> getbit (b s) j = false.

(** The invariant as a check that can be run. *)
Definition wfb (s : Bitset) : bool :=
  (0 <=? n s) && (n s <=? maxLen)
  && (Z.of_nat (length (b s)) =? wordsNeeded (n s))
  && forallb (fun w => (0 <=? w) && (w <? 2 ^ 32)) (b s).

(** The bitsets that the constructor and the operations produce when
    lengths stay within [maxLen]. *)
Inductive reachable : Bitset -> Prop :=
  | reach_New k : 0 <= k <= maxLen -> reachable (New k)
  | reach_Set s i s' :
      reachable s -> 0 <= i < maxLen -> Set_ s i = Some s' -> reachable s'
  | reach_Clear s i s' :
      reachable s -> 0 <= i -> Clear s i = Some s' -> reachable s'
  | reach_Flip s i s' :
      reachable s -> 0 <= i < maxLen -> Flip s i = Some s' -> reachable s'
  | reach_ClearAll s : reachable s -> reachable (ClearAll s)
  | reach_Clone s : reachable s -> reachable (Clone s)
  | reach_Copy s c : reachable s -> reachable c -> reachable (fst (Copy s c))
  | reach_Difference s t r :
      reachable s -> reachable t -> Difference s t = Some r -> reachable r
  | reach_Intersection s t r :
      reachable s -> reachable t -> Intersection s t = Some r -> reachable r
  | reach_Union s t r :
      reachable s -> reachable t -> Union s t = Some r -> reachable r
  | reach_SymmetricDifference s t r :
      reachable s -> reachable t -> SymmetricDifference s t = Some r ->
      reachable r
  | reach_Complement s r :
      reachable s -> Complement s = Some r -> reachable r.

(** [a.op(b).Equal(b.op(a))] returns true. *)
Definition commutes (op : Bitset -> Bitset -> option Bitset) (a c : Bitset) : Prop :=
  exists r1 r2, op a c = Some r1 /\ op c a = Some r2 /\ Equal r1 r2 = Some true.



(** ** Digit sums, to state what [popCountUint32] computes *)

(** The sum of the [k] low digits of [x] in base [B]. *)
Fixpoint dsum (B : Z) (k : nat) (x : Z) : Z :=
  match k with
  | O => 0
  | S k' => x mod B + dsum B k' (x / B)
  end.

(** The number of set bits of a word. *)
Definition bitcount (x : Z) : Z := dsum 2 32 x.

(** [x] read as [k] pairs of base-[B] digits, each pair replaced by the sum
    of its two digits. *)
Fixpoint pairsum (B : Z) (k : nat) (x : Z) : Z :=
  match k with
  | O => 0
  | S k' => (x mod B + (x / B) mod B) + (B * B) * pairsum B k' (x / (B * B))
  end.

(** The constant with [low] in each of [k] fields of width [step]. *)
Fixpoint fieldmask (low step : Z) (k : nat) : Z :=
  match k with
  | O => 0
  | S k' => low + step * fieldmask low step k'
  end.

(** [cap B k] is [B] to the power [k]. *)
Fixpoint cap (B : Z) (k : nat) : Z :=
  match k with
  | O => 1
  | S k' => B * cap B k'
  end.

(** [x] has at most [k] digits in base [B], none above [c]. *)
Fixpoint digits_le (B c : Z) (k : nat) (x : Z) : Prop :=
  match k with
  | O => x = 0
  | S k' => x mod B <= c /\ digits_le B c k' (x / B)
  end.

(** The sum of the word counts, without wrap-around. *)
Fixpoint total (l : list Z) : Z :=
  match l with
  | [] => 0
  | w :: l' => popCountUint32 w + total l'
  end.

(** ** Vocabulary of the bit-level properties *)

(** The number of set bits of [x] among the positions below [k]. *)
Fixpoint count_bits (k : nat) (x : Z) : Z :=
  match k with
  | O => 0
  | S k' => count_bits k' x + Z.b2z (Z.testbit x (Z.of_nat k'))
  end.

(** The zero-padding invariant as a check that can be run: the positions
    from the length to the end of the last word. *)
Definition padb (s : Bitset) : bool :=
  forallb (fun j => negb (getbit (b s) j))
    (seqZ (n s) (32 * Z.of_nat (length (b s)) - n s)).

(** The bitsets built without [Copy] and without complementing an empty
    bitset, with lengths within [maxLen]. *)
Inductive built : Bitset -> Prop :=
  | built_New k : 0 <= k <= maxLen -> built (New k)
  | built_Set s i s' :
      built s -> 0 <= i < maxLen -> Set_ s i = Some s' -> built s'
  | built_Clear s i s' :
      built s -> 0 <= i -> Clear s i = Some s' -> built s'
  | built_Flip s i s' :
      built s -> 0 <= i < maxLen -> Flip s i = Some s' -> built s'
  | built_ClearAll s : built s -> built (ClearAll s)
  | built_Clone s : built s -> built (Clone s)
  | built_Difference s t r :
      built s -> built t -> Difference s t = Some r -> built r
  | built_Intersection s t r :
      built s -> built t -> Intersection s t = Some r -> built r
  | built_Union s t r :
      built s -> built t -> Union s t = Some r -> built r
  | built_SymmetricDifference s t r :
      built s -> built t -> SymmetricDifference s t = Some r -> built r
  | built_Complement s r :
      built s -> 0 < n s -> Complement s = Some r -> built r.

(** * Properties *)

(** ** Arithmetic of word counts *)

Lemma u32_small z : 0 <= z < 2 ^ 32 -> u32 z = z.
Proof. intros H. unfold u32. by apply Z.mod_small. Qed.

Lemma u32_range z : 0 <= u32 z < 2 ^ 32.
Proof. unfold u32. apply Z.mod_pos_bound. lia. Qed.

Lemma shr_div x k : 0 <= k -> shr x k = x / 2 ^ k.
Proof. intros H. unfold shr. by apply Z.shiftr_div_pow2. Qed.

Lemma wordsNeeded_0 : wordsNeeded 0 = 1.
Proof. reflexivity. Qed.

Lemma wordsNeeded_ceil k :
  0 < k <= maxLen -> wordsNeeded k = (k + 31) / 32.
Proof.
  intros H. unfold wordsNeeded, maxLen, MaxUint32 in *.
  destruct (Z.eqb_spec k 0) as [|_]; [lia|].
  destruct (Z.eqb_spec k 4294967295) as [|_]; [lia|].
  unfold lWord, lLog2Word. rewrite u32_small by lia.
  rewrite shr_div by lia. reflexivity.
Qed.

(** In the supported range the word count is the one of the data model:
    [ceil(k / 32)], and one word for the empty bitset. *)
Lemma wordsNeeded_max k :
  0 <= k <= maxLen -> wordsNeeded k = Z.max 1 ((k + 31) / 32).
Proof.
  intros H. destruct (Z.eq_dec k 0) as [->|Hk]; [reflexivity|].
  rewrite wordsNeeded_ceil by lia. unfold maxLen in H.
  Z.div_mod_to_equations. lia.
Qed.

Lemma wordsNeeded_mono j k :
  0 <= j <= k -> k <= maxLen -> wordsNeeded j <= wordsNeeded k.
Proof.
  intros Hj Hk. rewrite !wordsNeeded_max by lia.
  unfold maxLen in Hk. Z.div_mod_to_equations. lia.
Qed.

Lemma wordsNeeded_bounds k :
  0 <= k <= maxLen -> 1 <= wordsNeeded k < 2 ^ 27.
Proof.
  intros H. rewrite wordsNeeded_max by lia.
  unfold maxLen in H. Z.div_mod_to_equations. lia.
Qed.

Lemma widx_div i : widx i = i / 32.
Proof. unfold widx, lLog2Word. by rewrite shr_div. Qed.

Lemma widx_lt i k :
  0 <= i < k -> k <= maxLen -> 0 <= widx i < wordsNeeded k.
Proof.
  intros Hi Hk. rewrite widx_div, wordsNeeded_ceil by lia.
  Z.div_mod_to_equations. lia.
Qed.

(** ** Checked slice accesses *)

Lemma in_range_true (l : list Z) i :
  0 <= i < Z.of_nat (length l) -> in_range l i = true.
Proof. intros H. unfold in_range. apply andb_true_iff. lia. Qed.

Lemma in_range_false (l : list Z) i :
  Z.of_nat (length l) <= i -> in_range l i = false.
Proof. intros H. unfold in_range. apply andb_false_iff. lia. Qed.

Lemma index_lookup (l : list Z) i :
  0 <= i < Z.of_nat (length l) -> index l i = l !! Z.to_nat i.
Proof. intros H. unfold index. by rewrite in_range_true. Qed.

Lemma index_is_Some (l : list Z) i :
  0 <= i < Z.of_nat (length l) -> exists w, index l i = Some w.
Proof.
  intros H. rewrite index_lookup by done.
  apply lookup_lt_is_Some_2. lia.
Qed.

Lemma index_Some_range (l : list Z) i w :
  index l i = Some w -> 0 <= i < Z.of_nat (length l).
Proof.
  unfold index, in_range. intros H.
  destruct (0 <=? i) eqn:H0, (i <? Z.of_nat (length l)) eqn:H1; simpl in H; try done.
  lia.
Qed.

Lemma store_insert (l : list Z) i w :
  0 <= i < Z.of_nat (length l) -> store l i w = Some (<[Z.to_nat i := w]> l).
Proof. intros H. unfold store. by rewrite in_range_true. Qed.

Lemma index_nat (l : list Z) (k : nat) :
  (k < length l)%nat -> index l (Z.of_nat k) = l !! k.
Proof. intros H. rewrite index_lookup by lia. by rewrite Nat2Z.id. Qed.

Lemma store_nat (l : list Z) (k : nat) w :
  (k < length l)%nat -> store l (Z.of_nat k) w = Some (<[k := w]> l).
Proof. intros H. rewrite store_insert by lia. by rewrite Nat2Z.id. Qed.

(** ** Reads and clears out of range *)

Lemma Clear_out_of_range s i : n s <= i -> Clear s i = Some s.
Proof. intros H. unfold Clear. by destruct (Z.leb_spec (n s) i); [|lia]. Qed.

(** C9: for every bitset and every index [i >= length], [Test] returns
    false without failing, and [Clear] returns the bitset as it was: same
    length, same words, no growth. *)
Theorem out_of_range_Test_Clear (s : Bitset) (i : Z) :
  n s <= i ->
  Test s i = Some false /\ Clear s i = Some s.
Proof.
  intros H. unfold Test, Clear.
  destruct (Z.leb_spec (n s) i); [done | lia].
Qed.

Lemma out_of_range_Test_Clear_witness :
  n (New 32) <= 40 /\
  Test (New 32) 40 = Some false /\ Clear (New 32) 40 = Some (New 32).
Proof.
  split; [simpl; lia | apply (out_of_range_Test_Clear (New 32) 40); simpl; lia].
Defined.

(** ** Words and single bits *)

Lemma is_word_bits w :
  is_word w <-> 0 <= w /\ forall j, 32 <= j -> Z.testbit w j = false.
Proof.
  unfold is_word. split.
  - intros [H0 H1]. split; [done|]. intros j Hj.
    rewrite <- (Z.mod_small w (2 ^ 32)) by lia.
    apply Z.mod_pow2_bits_high. lia.
  - intros [H0 H1]. split; [done|].
    assert (w mod 2 ^ 32 = w) as <-.
    { apply Z.bits_inj'. intros j Hj.
      destruct (Z.lt_ge_cases j 32).
      - apply Z.mod_pow2_bits_low. lia.
      - rewrite Z.mod_pow2_bits_high by lia. symmetry. by apply H1. }
    apply Z.mod_pos_bound. lia.
Qed.

Lemma is_word_lor x y : is_word x -> is_word y -> is_word (Z.lor x y).
Proof.
  rewrite !is_word_bits. intros [Hx Hx'] [Hy Hy']. split.
  - by apply Z.lor_nonneg.
  - intros j Hj. by rewrite Z.lor_spec, Hx', Hy'.
Qed.

Lemma is_word_land x y : is_word x -> is_word (Z.land x y).
Proof.
  rewrite !is_word_bits. intros [Hx Hx']. split.
  - apply Z.land_nonneg. by left.
  - intros j Hj. by rewrite Z.land_spec, Hx'.
Qed.

Lemma is_word_lxor x y : is_word x -> is_word y -> is_word (Z.lxor x y).
Proof.
  rewrite !is_word_bits. intros [Hx Hx'] [Hy Hy']. split.
  - by apply Z.lxor_nonneg.
  - intros j Hj. by rewrite Z.lxor_spec, Hx', Hy'.
Qed.

Lemma is_word_andnot x y : is_word x -> is_word (andnot x y).
Proof.
  unfold andnot. rewrite !is_word_bits. intros [Hx Hx']. split.
  - apply Z.ldiff_nonneg. by left.
  - intros j Hj. by rewrite Z.ldiff_spec, Hx'.
Qed.

Lemma is_word_0 : is_word 0.
Proof. unfold is_word. lia. Qed.

Lemma is_word_allBits : is_word allBits.
Proof. unfold is_word, allBits. lia. Qed.

Lemma is_word_not32 x : is_word x -> is_word (not32 x).
Proof. intros H. apply is_word_lxor; [done | apply is_word_allBits]. Qed.

(** The mask [1 << (i & 31)] is the power of two of the bit's position in
    its word. *)
Lemma mask_pow2 i : 0 <= i -> mask i = 2 ^ (i mod 32).
Proof.
  intros H. unfold mask, shl, lWord.
  change (32 - 1) with (Z.ones 5). rewrite Z.land_ones by lia.
  change (2 ^ 5) with 32.
  assert (0 <= i mod 32 < 32) as Hm by (apply Z.mod_pos_bound; lia).
  rewrite Z.shiftl_1_l. apply u32_small. split; [lia|].
  apply Z.pow_lt_mono_r; lia.
Qed.

Lemma is_word_mask i : 0 <= i -> is_word (mask i).
Proof.
  intros H. rewrite mask_pow2 by done. unfold is_word.
  assert (0 <= i mod 32 < 32) as Hm by (apply Z.mod_pos_bound; lia).
  split; [lia|]. apply Z.pow_lt_mono_r; lia.
Qed.

Lemma land_pow2 x k :
  0 <= k -> Z.land x (2 ^ k) = if Z.testbit x k then 2 ^ k else 0.
Proof.
  intros Hk. apply Z.bits_inj'. intros j Hj.
  rewrite Z.land_spec, Z.pow2_bits_eqb by done.
  destruct (Z.eqb_spec k j) as [->|Hne].
  - destruct (Z.testbit x j); simpl.
    + by rewrite Z.pow2_bits_true.
    + by rewrite Z.bits_0.
  - rewrite andb_false_r.
    destruct (Z.testbit x k); [|by rewrite Z.bits_0].
    rewrite Z.pow2_bits_eqb by done. symmetry. by apply Z.eqb_neq.
Qed.

(** The test [w & mask != 0] of [Test] reads the bit of [w]. *)
Lemma test_mask w i :
  0 <= i -> negb (Z.land w (mask i) =? 0) = Z.testbit w (i mod 32).
Proof.
  intros H. rewrite mask_pow2 by done.
  assert (0 <= i mod 32) as Hm by (apply Z.mod_pos_bound; lia).
  rewrite land_pow2 by done.
  destruct (Z.testbit w (i mod 32)); [|done].
  assert (0 < 2 ^ (i mod 32)) by (apply Z.pow_pos_nonneg; lia).
  destruct (Z.eqb_spec (2 ^ (i mod 32)) 0); [lia | done].
Qed.

Lemma testbit_set w i :
  0 <= i -> Z.testbit (Z.lor w (mask i)) (i mod 32) = true.
Proof.
  intros H. rewrite mask_pow2 by done.
  assert (0 <= i mod 32) as Hm by (apply Z.mod_pos_bound; lia).
  rewrite Z.lor_spec, Z.pow2_bits_true by done. apply orb_true_r.
Qed.

Lemma testbit_flip w i :
  0 <= i ->
  Z.testbit (Z.lxor w (mask i)) (i mod 32) = negb (Z.testbit w (i mod 32)).
Proof.
  intros H. rewrite mask_pow2 by done.
  assert (0 <= i mod 32) as Hm by (apply Z.mod_pos_bound; lia).
  rewrite Z.lxor_spec, Z.pow2_bits_true by done. apply xorb_true_r.
Qed.

(** ** The representation invariant *)

Lemma length_make k : 0 <= k -> Z.of_nat (length (make k)) = k.
Proof. intros H. unfold make. rewrite length_replicate. lia. Qed.

Lemma Forall_make k : Forall is_word (make k).
Proof. unfold make. apply Forall_replicate, is_word_0. Qed.

Lemma New_wf k : 0 <= k <= maxLen -> wf (New k).
Proof.
  intros H. pose proof (wordsNeeded_bounds k H).
  split; simpl; [done | apply length_make; lia | apply Forall_make].
Qed.

Lemma wfb_wf s : wfb s = true <-> wf s.
Proof.
  unfold wfb. rewrite !andb_true_iff, forallb_forall, Z.eqb_eq, !Z.leb_le.
  split.
  - intros [[[H0 H1] Hl] Hw]. split; [lia | done |].
    apply List.Forall_forall. intros w Hin. specialize (Hw w Hin).
    apply andb_true_iff in Hw as [Ha Hb]. unfold is_word. lia.
  - intros [Hn Hl Hw]. split; [split; [lia | done]|].
    intros w Hin. rewrite List.Forall_forall in Hw. specialize (Hw w Hin).
    unfold is_word in Hw. apply andb_true_iff. lia.
Qed.

(** The invariant is the one of the data model, [ceil(length / 32)] words
    and one word for length 0, on the bitsets that the code has sized: the
    two word counts agree exactly for the lengths up to [maxLen]. *)
Lemma wf_iff_data_model s :
  wf s <->
  0 <= n s < 2 ^ 32
  /\ Z.of_nat (length (b s)) = wordsNeeded (n s)
  /\ Z.of_nat (length (b s)) = Z.max 1 ((n s + 31) / 32)
  /\ Forall is_word (b s).
Proof.
  split.
  - intros [Hn Hl Hw]. split; [unfold maxLen in Hn; lia|]. split; [done|].
    split; [|done]. rewrite Hl. by apply wordsNeeded_max.
  - intros (Hn & Hl & Hceil & Hw). split; [|done..].
    split; [lia|]. rewrite Hl in Hceil.
    destruct (Z.le_gt_cases (n s) maxLen) as [|Hgt]; [done|]. exfalso.
    unfold wordsNeeded, MaxUint32, lWord, lLog2Word, maxLen in *.
    destruct (Z.eqb_spec (n s) 0); [lia|].
    destruct (Z.eqb_spec (n s) 4294967295) as [Heq|Hne].
    + rewrite Heq in Hceil. vm_compute in Hceil. discriminate.
    + rewrite shr_div in Hceil by lia. unfold u32 in Hceil.
      change (2 ^ 32) with 4294967296 in *. change (2 ^ 5) with 32 in Hceil.
      Z.div_mod_to_equations. lia.
Qed.

Lemma wf_len_u32 s : wf s -> len (b s) = wordsNeeded (n s).
Proof.
  intros [Hn Hl _]. unfold len. rewrite Hl.
  pose proof (wordsNeeded_bounds _ Hn). apply u32_small. lia.
Qed.

Lemma wf_index s i :
  wf s -> 0 <= i < n s ->
  exists w, index (b s) (widx i) = Some w /\ is_word w
            /\ forall v, store (b s) (widx i) v
                         = Some (<[Z.to_nat (widx i) := v]> (b s)).
Proof.
  intros [Hn Hl Hw] Hi.
  pose proof (widx_lt i (n s) Hi (proj2 Hn)) as Hlt. rewrite <- Hl in Hlt.
  destruct (index_is_Some _ _ Hlt) as [w Hidx]. exists w. split; [done|]. split.
  - rewrite index_lookup in Hidx by done.
    by eapply Forall_lookup_1.
  - intros v. by apply store_insert.
Qed.

Lemma wf_update s k v :
  wf s -> is_word v -> wf (mkBitset (n s) (<[k := v]> (b s))).
Proof.
  intros [Hn Hl Hw] Hv. split; simpl; [done | by rewrite length_insert |].
  by apply Forall_insert.
Qed.

(** ** Growth *)

Lemma grow_spec s i :
  wf s -> n s <= i < maxLen ->
  wf (grow s i) /\ n (grow s i) = i + 1 /\
  exists k : nat, b (grow s i) = b s ++ replicate k 0.
Proof.
  intros Hwf Hi. pose proof Hwf as [Hn Hl Hw].
  unfold grow. rewrite (wf_len_u32 s Hwf).
  assert (u32 (i + 1) = i + 1) as -> by (apply u32_small; unfold maxLen in *; lia).
  pose proof (wordsNeeded_mono (n s) (i + 1)) as Hmono.
  pose proof (wordsNeeded_bounds (i + 1)) as Hb.
  destruct (Z.ltb_spec (wordsNeeded (n s)) (wordsNeeded (i + 1))) as [Hlt|Hge].
  - split; [|split; [done|]].
    + split; simpl; [lia| |].
      * rewrite length_app, Nat2Z.inj_add, length_make by lia. lia.
      * apply Forall_app. split; [done | apply Forall_make].
    + simpl. eexists. reflexivity.
  - split; [|split; [done|]].
    + split; simpl; [lia | lia | done].
    + simpl. exists 0%nat. by rewrite app_nil_r.
Qed.

(** ** Single-bit operations in the supported range *)

Lemma Test_index s i :
  wf s -> 0 <= i < n s ->
  exists w, index (b s) (widx i) = Some w
            /\ Test s i = Some (Z.testbit w (i mod 32)).
Proof.
  intros Hwf Hi. destruct (wf_index s i Hwf Hi) as (w & Hw & _ & _).
  exists w. split; [done|]. unfold Test.
  destruct (Z.leb_spec (n s) i); [lia|].
  rewrite Hw. simpl. by rewrite test_mask by lia.
Qed.

(** Writing [f w] over the word [w] that holds bit [i]. *)
Lemma update_bit s i (f : Z -> Z) :
  wf s -> 0 <= i < n s -> (forall w, is_word w -> is_word (f w)) ->
  exists w bb,
    index (b s) (widx i) = Some w /\ store (b s) (widx i) (f w) = Some bb
    /\ wf (mkBitset (n s) bb)
    /\ Test (mkBitset (n s) bb) i = Some (Z.testbit (f w) (i mod 32)).
Proof.
  intros Hwf Hi Hf. destruct (wf_index s i Hwf Hi) as (w & Hw & Hword & Hst).
  exists w, (<[Z.to_nat (widx i) := f w]> (b s)).
  split; [done|]. split; [apply Hst|].
  assert (wf (mkBitset (n s) (<[Z.to_nat (widx i) := f w]> (b s)))) as Hwf'
    by (apply wf_update; auto).
  split; [done|].
  destruct (Test_index _ i Hwf' Hi) as (w' & Hw' & ->). simpl in Hw'.
  apply index_Some_range in Hw as Hr.
  rewrite index_lookup, list_lookup_insert_eq in Hw'
    by (rewrite ?length_insert; lia).
  by inversion Hw'.
Qed.

(** [Set] on a well-formed bitset, for an index whose successor is a
    supported length. *)
Lemma Set_in_range s i :
  wf s -> 0 <= i < maxLen ->
  exists s', Set_ s i = Some s' /\ wf s' /\ Test s' i = Some true
             /\ n s' = Z.max (n s) (i + 1)
             /\ (n s <= i ->
                 Z.of_nat (length (b s')) = wordsNeeded (i + 1)
                 /\ exists k : nat, b (grow s i) = b s ++ replicate k 0).
Proof.
  intros Hwf Hi. unfold Set_.
  set (s1 := if n s <=? i then grow s i else s).
  assert (wf s1 /\ n s1 = Z.max (n s) (i + 1)) as [Hwf1 Hn1].
  { subst s1. destruct (Z.leb_spec (n s) i).
    - destruct (grow_spec s i Hwf) as (? & ? & _); [lia|]. split; [done | lia].
    - split; [done | lia]. }
  destruct (update_bit s1 i (fun w => Z.lor w (mask i)) Hwf1) as (w & bb & Hw & Hst & Hwf' & Ht).
  { lia. }
  { intros w Hw. apply is_word_lor; [done | apply is_word_mask; lia]. }
  rewrite Hw. simpl. rewrite Hst. simpl. eexists. split; [done|]. split; [done|]. split.
  { rewrite Ht. by rewrite testbit_set by lia. }
  split; [done|]. intros Hge. split.
  - destruct Hwf' as [_ Hl _]. simpl in *. rewrite Hl, Hn1. f_equal. lia.
  - by destruct (grow_spec s i Hwf) as (_ & _ & ?); [lia|].
Qed.

Lemma Clear_in_range s i :
  wf s -> 0 <= i < n s ->
  exists s', Clear s i = Some s' /\ wf s' /\ n s' = n s
             /\ Test s' i = Some false.
Proof.
  intros Hwf Hi. unfold Clear. destruct (Z.leb_spec (n s) i); [lia|].
  destruct (update_bit s i (fun w => andnot w (mask i)) Hwf Hi)
    as (w & bb & Hw & Hst & Hwf' & Ht).
  { intros w Hw. by apply is_word_andnot. }
  rewrite Hw. simpl. rewrite Hst. simpl. eexists. split; [done|]. split; [done|]. split; [done|].
  rewrite Ht. f_equal. unfold andnot.
  rewrite Z.ldiff_spec, mask_pow2, Z.pow2_bits_true by (try apply Z.mod_pos_bound; lia).
  apply andb_false_r.
Qed.

(** [Flip] inside the current length toggles the bit. *)
Lemma Flip_inside s i :
  wf s -> 0 <= i < n s ->
  exists s' v, Flip s i = Some s' /\ wf s' /\ n s' = n s
               /\ Test s i = Some v /\ Test s' i = Some (negb v).
Proof.
  intros Hwf Hi. unfold Flip. destruct (Z.leb_spec (n s) i); [lia|]. simpl.
  destruct (update_bit s i (fun w => Z.lxor w (mask i)) Hwf Hi)
    as (w & bb & Hw & Hst & Hwf' & Ht).
  { intros w Hw. apply is_word_lxor; [done | apply is_word_mask; lia]. }
  destruct (Test_index s i Hwf Hi) as (w' & Hw' & Ht0).
  rewrite Hw. simpl. rewrite Hst. simpl.
  rewrite Hw in Hw'. inversion Hw'; subst w'.
  exists (mkBitset (n s) bb), (Z.testbit w (i mod 32)).
  split; [done|]. split; [done|]. split; [done|]. split; [done|].
  rewrite Ht. by rewrite testbit_flip by lia.
Qed.

(** [Flip] at or past the current length grows the bitset through [Set],
    which sets the bit, and then toggles it: the bit ends up clear. *)
Lemma Flip_growth s i :
  wf s -> n s <= i < maxLen ->
  exists s', Flip s i = Some s' /\ wf s' /\ n s' = i + 1
             /\ Test s' i = Some false.
Proof.
  intros Hwf Hi. pose proof (wf_n s Hwf) as Hn.
  destruct (Set_in_range s i Hwf) as (s1 & HS & Hwf1 & Ht1 & Hn1 & _); [lia|].
  destruct (Flip_inside s1 i Hwf1) as (s' & v & HF & Hwf' & Hn' & Hv & Ht'); [lia|].
  rewrite Ht1 in Hv. inversion Hv; subst v.
  exists s'. split.
  - unfold Flip in *. destruct (Z.leb_spec (n s) i); [|lia].
    destruct (Z.leb_spec (n s1) i); [lia|]. rewrite HS. exact HF.
  - split; [done|]. split; [lia | done].
Qed.

(** ** What the loops compute

    A loop that writes [res[i]] for consecutive [i] replaces a segment of
    [res]: with [pre] already written, [old] still to be overwritten by
    the values [vs], and [post] never reached. *)

Lemma store_middle (pre post : list Z) o v :
  store (pre ++ o :: post) (Z.of_nat (length pre)) v = Some (pre ++ v :: post).
Proof.
  rewrite store_nat by (rewrite length_app; simpl; lia).
  f_equal. rewrite insert_app_r_alt by lia.
  by rewrite Nat.sub_diag.
Qed.

Lemma range_loop_spec f ws :
  forall vs pre old post,
    length old = length ws -> length vs = length ws ->
    (forall j w, ws !! j = Some w ->
                 f (Z.of_nat (length pre + j)) w = vs !! j) ->
    range_loop f ws (Z.of_nat (length pre)) (pre ++ old ++ post)
    = Some (pre ++ vs ++ post).
Proof.
  induction ws as [|w ws IH]; intros vs pre old post Hold Hvs Hf.
  - destruct vs, old; try done.
  - destruct vs as [|v vs], old as [|o old]; try done. simpl.
    pose proof (Hf 0%nat w eq_refl) as H0. rewrite Nat.add_0_r in H0.
    rewrite H0. simpl. rewrite store_middle. simpl.
    replace (Z.of_nat (length pre) + 1) with (Z.of_nat (length (pre ++ [v])))
      by (rewrite length_app; simpl; lia).
    replace (pre ++ v :: old ++ post) with ((pre ++ [v]) ++ old ++ post)
      by (by rewrite <- app_assoc).
    replace (pre ++ v :: vs ++ post) with ((pre ++ [v]) ++ vs ++ post)
      by (by rewrite <- app_assoc).
    apply IH; [by inversion Hold | by inversion Hvs |].
    intros j w' Hj. rewrite length_app. simpl.
    replace (length pre + 1 + j)%nat with (length pre + S j)%nat by lia.
    by apply (Hf (S j)).
Qed.

Lemma for_loop_spec f l szl vs :
  0 <= l < 2 ^ 32 ->
  forall count pre old post,
    length old = length vs ->
    Z.of_nat (length pre + length vs) = Z.min l szl ->
    (length vs <= count)%nat ->
    (forall j v, vs !! j = Some v -> f (Z.of_nat (length pre + j)) = Some v) ->
    for_loop f count (Z.of_nat (length pre)) l szl (pre ++ old ++ post)
    = Some (pre ++ vs ++ post).
Proof.
  intros Hl. induction vs as [|v vs IH]; intros count pre old post Hold Hmin Hc Hf.
  - destruct old; [|done]. simpl in *. destruct count as [|count]; [done|]. simpl.
    destruct (Z.ltb_spec (Z.of_nat (length pre)) l); [|done].
    destruct (Z.leb_spec szl (Z.of_nat (length pre))); [done | lia].
  - destruct old as [|o old]; [done|]. destruct count as [|count]; [simpl in Hc; lia|].
    simpl in *.
    destruct (Z.ltb_spec (Z.of_nat (length pre)) l); [|lia].
    destruct (Z.leb_spec szl (Z.of_nat (length pre))); [lia|].
    pose proof (Hf 0%nat v eq_refl) as Hv0. rewrite Nat.add_0_r in Hv0.
    rewrite Hv0. simpl. rewrite store_middle. simpl.
    rewrite u32_small by lia.
    replace (Z.of_nat (length pre) + 1) with (Z.of_nat (length (pre ++ [v])))
      by (rewrite length_app; simpl; lia).
    replace (pre ++ v :: old ++ post) with ((pre ++ [v]) ++ old ++ post)
      by (by rewrite <- app_assoc).
    replace (pre ++ v :: vs ++ post) with ((pre ++ [v]) ++ vs ++ post)
      by (by rewrite <- app_assoc).
    apply IH; [by inversion Hold | rewrite length_app; simpl; lia | lia |].
    intros j v' Hj. rewrite length_app. simpl.
    replace (length pre + 1 + j)%nat with (length pre + S j)%nat by lia.
    by apply (Hf (S j)).
Qed.

(** The loop of [Difference], [Union] and [SymmetricDifference]: it
    combines the first [min(l, szl)] words. *)
Lemma word_loop_spec (op : Z -> Z -> Z) (x y res : list Z) l szl (m : nat) :
  0 <= l < 2 ^ 32 -> Z.of_nat m = Z.min l szl ->
  (m <= length x)%nat -> (m <= length y)%nat -> (m <= length res)%nat ->
  for_loop (fun i => u ← index x i; v ← index y i; Some (op u v))
    (Z.to_nat l) 0 l szl res
  = Some (zip_with op (take m x) (take m y) ++ drop m res).
Proof.
  intros Hl Hm Hx Hy Hres.
  pose proof (for_loop_spec
    (fun i => u ← index x i; v ← index y i; Some (op u v)) l szl
    (zip_with op (take m x) (take m y)) Hl (Z.to_nat l) [] (take m res) (drop m res))
    as H.
  simpl in H. rewrite take_drop in H. apply H.
  - rewrite length_zip_with, !length_take. lia.
  - rewrite length_zip_with, !length_take. lia.
  - rewrite length_zip_with, !length_take. lia.
  - intros j v Hj. apply lookup_zip_with_Some in Hj as (u & w & -> & Hu & Hw).
    apply lookup_take_Some in Hu as [Hu Hjm]. apply lookup_take_Some in Hw as [Hw _].
    rewrite !index_nat by lia. by rewrite Hu, Hw.
Qed.

(** The loop of [Intersection]. *)
Lemma land_loop_spec (ws y res : list Z) :
  (length ws <= length y)%nat -> (length ws <= length res)%nat ->
  range_loop (fun i w => v ← index y i; Some (Z.land w v)) ws 0 res
  = Some (zip_with Z.land ws y ++ drop (length ws) res).
Proof.
  intros Hy Hres.
  pose proof (range_loop_spec (fun i w => v ← index y i; Some (Z.land w v)) ws
    (zip_with Z.land ws y) [] (take (length ws) res) (drop (length ws) res)) as H.
  simpl in H. rewrite take_drop in H. apply H.
  - rewrite length_take. lia.
  - rewrite length_zip_with. lia.
  - intros j w Hj.
    destruct (lookup_lt_is_Some_2 y j) as [v Hv].
    { apply lookup_lt_Some in Hj. lia. }
    rewrite index_nat by (apply lookup_lt_Some in Hv; lia).
    rewrite Hv. simpl. symmetry. apply lookup_zip_with_Some. eauto.
Qed.

(** The loop of [Complement]. *)
Lemma not_loop_spec (ws res : list Z) :
  (length ws <= length res)%nat ->
  range_loop (fun _ w => Some (not32 w)) ws 0 res
  = Some (map not32 ws ++ drop (length ws) res).
Proof.
  intros Hres.
  pose proof (range_loop_spec (fun _ w => Some (not32 w)) ws
    (map not32 ws) [] (take (length ws) res) (drop (length ws) res)) as H.
  simpl in H. rewrite take_drop in H. apply H.
  - rewrite length_take. lia.
  - by rewrite length_map.
  - intros j w Hj. symmetry. change (map not32 ws) with (not32 <$> ws).
    by rewrite list_lookup_fmap, Hj.
Qed.

(** ** Cloning and comparing *)

Lemma copy_same_length (dst src : list Z) :
  length dst = length src -> copy dst src = src.
Proof.
  intros H. unfold copy.
  rewrite take_ge, drop_ge by lia. apply app_nil_r.
Qed.

Lemma wf_length s : wf s -> length (b s) = Z.to_nat (wordsNeeded (n s)).
Proof. intros [_ Hl _]. lia. Qed.

Lemma length_New_wf s : wf s -> length (b (New (n s))) = length (b s).
Proof.
  intros Hwf. simpl. unfold make. rewrite length_replicate.
  symmetry. by apply wf_length.
Qed.

Lemma Clone_wf s : wf s -> Clone s = s.
Proof.
  intros Hwf. unfold Clone.
  rewrite copy_same_length by (by apply length_New_wf).
  by destruct s.
Qed.

Lemma wf_mono_length s t :
  wf s -> wf t -> n s <= n t -> (length (b s) <= length (b t))%nat.
Proof.
  intros Hs Ht Hle. rewrite (wf_length s), (wf_length t) by done.
  apply Z2Nat.inj_le.
  - pose proof (wordsNeeded_bounds _ (wf_n s Hs)). lia.
  - pose proof (wordsNeeded_bounds _ (wf_n t Ht)). lia.
  - apply wordsNeeded_mono; [pose proof (wf_n s Hs); lia | apply (wf_n t Ht)].
Qed.

Lemma wf_eq_length s t :
  wf s -> wf t -> n s = n t -> length (b s) = length (b t).
Proof.
  intros Hs Ht Heq. rewrite (wf_length s), (wf_length t) by done. by rewrite Heq.
Qed.

Lemma Equal_loop_same (ws : list Z) :
  forall pre, Equal_loop ws (Z.of_nat (length pre)) (pre ++ ws) = Some true.
Proof.
  induction ws as [|v ws IH]; intros pre; [done|]. simpl.
  rewrite index_nat by (rewrite length_app; simpl; lia).
  rewrite list_lookup_middle by done. simpl. rewrite Z.eqb_refl. simpl.
  replace (Z.of_nat (length pre) + 1) with (Z.of_nat (length (pre ++ [v])))
    by (rewrite length_app; simpl; lia).
  replace (pre ++ v :: ws) with ((pre ++ [v]) ++ ws) by (by rewrite <- app_assoc).
  apply IH.
Qed.

Lemma Equal_refl s : Equal s s = Some true.
Proof.
  unfold Equal. rewrite Z.eqb_refl. simpl. apply (Equal_loop_same (b s) []).
Qed.

(** ** The set-algebra operations on well-formed bitsets *)

Lemma wf_len_range s : wf s -> 0 <= len (b s) < 2 ^ 32.
Proof. intros _. apply u32_range. Qed.

Lemma len_length s : wf s -> len (b s) = Z.of_nat (length (b s)).
Proof. intros Hwf. rewrite wf_len_u32 by done. symmetry. apply (wf_len s Hwf). Qed.

Lemma wordCount_length s : wf s -> wordCount s = Z.of_nat (length (b s)).
Proof. intros Hwf. symmetry. apply (wf_len s Hwf). Qed.

Lemma Difference_spec s ob :
  wf s -> wf ob ->
  Difference s ob
  = Some (mkBitset (n s)
            (zip_with andnot (b s) (b ob) ++ drop (length (b ob)) (b s))).
Proof.
  intros Hs Hob. unfold Difference. rewrite (Clone_wf s Hs).
  set (m := (length (b s) `min` length (b ob))%nat).
  rewrite (word_loop_spec andnot (b s) (b ob) (b s) _ _ m);
    [ | by apply wf_len_range
      | rewrite len_length, wordCount_length by done; lia
      | lia | lia | lia ].
  simpl. do 3 f_equal.
  - apply zip_with_take_both'; lia.
  - destruct (Nat.le_gt_cases (length (b s)) (length (b ob))).
    + by rewrite !drop_ge by lia.
    + f_equal. lia.
Qed.

Lemma Intersection_sorted s ob :
  wf s -> wf ob -> n s <= n ob ->
  range_loop (fun i w => y ← index (b ob) i; Some (Z.land w y)) (b s) 0
    (b (New (n s)))
  = Some (zip_with Z.land (b s) (b ob)).
Proof.
  intros Hs Hob Hle. pose proof (wf_mono_length s ob Hs Hob Hle).
  rewrite land_loop_spec by (rewrite ?length_New_wf; done || lia).
  rewrite drop_ge by (rewrite length_New_wf; done || lia).
  by rewrite app_nil_r.
Qed.

(** The loop of [Union] and [SymmetricDifference] once the operands are
    sorted: [szl] is the word count of either operand. *)
Lemma sorted_loop_spec (op : Z -> Z -> Z) s ob szl :
  wf s -> wf ob -> n s <= n ob ->
  szl = wordCount s \/ szl = wordCount ob ->
  for_loop (fun i => x ← index (b s) i; y ← index (b ob) i; Some (op x y))
    (Z.to_nat (len (b s))) 0 (len (b s)) szl (b (Clone ob))
  = Some (zip_with op (b s) (b ob) ++ drop (length (b s)) (b ob)).
Proof.
  intros Hs Hob Hle Hszl. pose proof (wf_mono_length s ob Hs Hob Hle).
  rewrite (Clone_wf ob Hob).
  rewrite (word_loop_spec op (b s) (b ob) (b ob) _ _ (length (b s)));
    [ | by apply wf_len_range
      | rewrite len_length by done;
        destruct Hszl as [-> | ->]; rewrite wordCount_length by done; lia
      | lia | lia | lia ].
  do 2 f_equal. apply zip_with_take_both'; lia.
Qed.

Lemma Intersection_spec a c :
  wf a -> wf c ->
  Intersection a c
  = Some (let '(s, ob) := sortByLength a c in
          mkBitset (n s) (zip_with Z.land (b s) (b ob))).
Proof.
  intros Ha Hc. unfold Intersection, sortByLength.
  destruct (Z.leb_spec (n a) (n c)).
  - by rewrite Intersection_sorted.
  - by rewrite Intersection_sorted by (done || lia).
Qed.

Lemma Union_spec a c :
  wf a -> wf c ->
  Union a c
  = Some (let '(s, ob) := sortByLength a c in
          mkBitset (n ob)
            (zip_with Z.lor (b s) (b ob) ++ drop (length (b s)) (b ob))).
Proof.
  intros Ha Hc. unfold Union, sortByLength.
  destruct (Z.leb_spec (n a) (n c)).
  - by rewrite sorted_loop_spec by auto.
  - by rewrite sorted_loop_spec by (auto || lia).
Qed.

Lemma SymmetricDifference_spec a c :
  wf a -> wf c ->
  SymmetricDifference a c
  = Some (let '(s, ob) := sortByLength a c in
          mkBitset (n ob)
            (zip_with Z.lxor (b s) (b ob) ++ drop (length (b s)) (b ob))).
Proof.
  intros Ha Hc. unfold SymmetricDifference, sortByLength.
  destruct (Z.leb_spec (n a) (n c)).
  - by rewrite sorted_loop_spec by auto.
  - by rewrite sorted_loop_spec by (auto || lia).
Qed.

(** ** Commutativity *)

Lemma zip_with_comm (op : Z -> Z -> Z) (l k : list Z) :
  (forall x y, op x y = op y x) -> zip_with op l k = zip_with op k l.
Proof.
  intros Hop. revert k. induction l as [|x l IH]; intros [|y k]; simpl; try done.
  by rewrite Hop, IH.
Qed.

(** Sorting by length makes the result independent of the order of the
    operands as soon as the combination [F] is symmetric on operands of
    equal length. *)
Lemma sortByLength_comm (F : Bitset -> Bitset -> Bitset) a c :
  (n a = n c -> F a c = F c a) ->
  (let '(s, ob) := sortByLength a c in F s ob)
  = (let '(s, ob) := sortByLength c a in F s ob).
Proof.
  intros HF. unfold sortByLength.
  destruct (Z.leb_spec (n a) (n c)), (Z.leb_spec (n c) (n a)); try done; try lia.
  apply HF. lia.
Qed.

Lemma commutes_of_spec op (F : Bitset -> Bitset -> Bitset) a c :
  op a c = Some (let '(s, ob) := sortByLength a c in F s ob) ->
  op c a = Some (let '(s, ob) := sortByLength c a in F s ob) ->
  (n a = n c -> F a c = F c a) ->
  commutes op a c.
Proof.
  intros H1 H2 HF. eexists _, _. split; [exact H1|]. split; [exact H2|].
  rewrite (sortByLength_comm F a c HF). apply Equal_refl.
Qed.

(** X27: on bitsets that satisfy the representation invariant, of equal or
    different lengths, [Union], [Intersection] and [SymmetricDifference]
    are commutative: both orders succeed and [Equal] finds the two results
    equal. *)
Theorem set_algebra_commutative (a c : Bitset) :
  wf a -> wf c ->
  commutes Union a c /\ commutes Intersection a c
  /\ commutes SymmetricDifference a c.
Proof.
  intros Ha Hc. split; [|split].
  - eapply (commutes_of_spec Union
      (fun s ob => mkBitset (n ob)
         (zip_with Z.lor (b s) (b ob) ++ drop (length (b s)) (b ob)))).
    + by apply Union_spec.
    + by apply Union_spec.
    + intros Hn. pose proof (wf_eq_length a c Ha Hc Hn) as Hl.
      rewrite Hn, !drop_ge by lia. f_equal. f_equal.
      apply zip_with_comm, Z.lor_comm.
  - eapply (commutes_of_spec Intersection
      (fun s ob => mkBitset (n s) (zip_with Z.land (b s) (b ob)))).
    + by apply Intersection_spec.
    + by apply Intersection_spec.
    + intros Hn. rewrite Hn. f_equal. apply zip_with_comm, Z.land_comm.
  - eapply (commutes_of_spec SymmetricDifference
      (fun s ob => mkBitset (n ob)
         (zip_with Z.lxor (b s) (b ob) ++ drop (length (b s)) (b ob)))).
    + by apply SymmetricDifference_spec.
    + by apply SymmetricDifference_spec.
    + intros Hn. pose proof (wf_eq_length a c Ha Hc Hn) as Hl.
      rewrite Hn, !drop_ge by lia. f_equal. f_equal.
      apply zip_with_comm, Z.lxor_comm.
Qed.

Lemma set_algebra_commutative_witness :
  wf (mkBitset 3 [5]) /\ wf (mkBitset 40 [6; 129]) /\
  commutes Union (mkBitset 3 [5]) (mkBitset 40 [6; 129]) /\
  commutes Intersection (mkBitset 3 [5]) (mkBitset 40 [6; 129]) /\
  commutes SymmetricDifference (mkBitset 3 [5]) (mkBitset 40 [6; 129]).
Proof.
  assert (wf (mkBitset 3 [5])) as Ha.
  { apply wfb_wf. reflexivity. }
  assert (wf (mkBitset 40 [6; 129])) as Hc.
  { apply wfb_wf. reflexivity. }
  split; [exact Ha|]. split; [exact Hc|].
  exact (set_algebra_commutative _ _ Ha Hc).
Defined.

(** C5: two bitsets from the constructor on which [Intersection] and
    [SymmetricDifference] fail in both orders, so that neither operation
    is commutative there: the longer bitset, of length [2^32 - 31], has no
    word, its word count having wrapped, and both operations read its
    word 0.  [Union] stops at the word count of the longer operand and
    returns the longer operand in both orders. *)
Theorem set_algebra_commutative_overflow :
  New 5 = mkBitset 5 [0] /\ New 4294967265 = mkBitset 4294967265 []
  /\ Intersection (New 5) (New 4294967265) = None
  /\ Intersection (New 4294967265) (New 5) = None
  /\ SymmetricDifference (New 5) (New 4294967265) = None
  /\ SymmetricDifference (New 4294967265) (New 5) = None
  /\ ~ commutes Intersection (New 5) (New 4294967265)
  /\ ~ commutes SymmetricDifference (New 5) (New 4294967265)
  /\ commutes Union (New 5) (New 4294967265).
Proof.
  do 6 (split; [reflexivity|]).
  split; [|split].
  - intros (r1 & r2 & H1 & _). vm_compute in H1. discriminate.
  - intros (r1 & r2 & H1 & _). vm_compute in H1. discriminate.
  - exists (mkBitset 4294967265 []), (mkBitset 4294967265 []).
    repeat split.
Qed.

(** ** The population count

    [popCountUint32] is proved to count the set bits of a word by following
    its steps: each of the first three replaces pairs of neighbouring
    digits (in base 2, 4, 16) by their sum, which keeps the sum of all
    digits; the last two add up the four bytes. *)

Lemma land_mod_pow2 a c k :
  0 <= k -> Z.land a c mod 2 ^ k = Z.land (a mod 2 ^ k) (c mod 2 ^ k).
Proof.
  intros Hk. rewrite <- !Z.land_ones by done.
  apply Z.bits_inj'. intros j Hj. rewrite !Z.land_spec.
  destruct (Z.testbit a j), (Z.testbit c j), (Z.testbit (Z.ones k) j); done.
Qed.

Lemma land_split k a c :
  0 <= k ->
  Z.land a c
  = Z.land (a mod 2 ^ k) (c mod 2 ^ k) + 2 ^ k * Z.land (a / 2 ^ k) (c / 2 ^ k).
Proof.
  intros Hk. assert (0 < 2 ^ k) by (apply Z.pow_pos_nonneg; lia).
  rewrite (Z.div_mod (Z.land a c) (2 ^ k)) at 1 by lia.
  rewrite land_mod_pow2 by done.
  rewrite <- !Z.shiftr_div_pow2, Z.shiftr_land by done. lia.
Qed.

Lemma land_field w k a m :
  0 <= w <= k ->
  Z.land a (Z.ones w + 2 ^ k * m) = a mod 2 ^ w + 2 ^ k * Z.land (a / 2 ^ k) m.
Proof.
  intros Hw. assert (0 < 2 ^ k) by (apply Z.pow_pos_nonneg; lia).
  assert (0 <= Z.ones w < 2 ^ k) as Hones.
  { rewrite Z.ones_equiv. assert (0 < 2 ^ w) by (apply Z.pow_pos_nonneg; lia).
    assert (2 ^ w <= 2 ^ k) by (apply Z.pow_le_mono_r; lia). lia. }
  rewrite (land_split k) by lia.
  replace ((Z.ones w + 2 ^ k * m) mod 2 ^ k) with (Z.ones w).
  2:{ rewrite Z.mul_comm, Z.mod_add by lia. symmetry. by apply Z.mod_small. }
  replace ((Z.ones w + 2 ^ k * m) / 2 ^ k) with m.
  2:{ rewrite Z.mul_comm, Z.div_add by lia. rewrite Z.div_small by done. lia. }
  f_equal. rewrite Z.land_ones by lia.
  rewrite <- !Z.land_ones by lia. rewrite <- Z.land_assoc. f_equal.
  rewrite Z.land_comm, Z.land_ones by lia. by apply Z.mod_small.
Qed.

Lemma land_m1 a m : Z.land a (1 + 4 * m) = a mod 2 + 4 * Z.land (a / 4) m.
Proof. apply (land_field 1 2 a m). lia. Qed.

Lemma land_m2 a m : Z.land a (3 + 16 * m) = a mod 4 + 16 * Z.land (a / 16) m.
Proof. apply (land_field 2 4 a m). lia. Qed.

Lemma land_m4 a m : Z.land a (15 + 256 * m) = a mod 16 + 256 * Z.land (a / 256) m.
Proof. apply (land_field 4 8 a m). lia. Qed.

Lemma div_div_const x p q : 0 < p -> 0 < q -> x / p / q = x / (p * q).
Proof. intros. apply Z.div_div; lia. Qed.

(** First step: [x - ((x >> 1) & m1)] adds the bits of each pair. *)
Lemma stage1 k :
  forall x, 0 <= x < cap 4 k ->
            x - Z.land (x / 2) (fieldmask 1 4 k) = pairsum 2 k x.
Proof.
  induction k as [|k IH]; intros x Hx; cbn [cap fieldmask pairsum] in *.
  - assert (x = 0) as -> by lia. reflexivity.
  - rewrite land_m1. change (2 * 2) with 4.
    replace (x / 2 / 4) with (x / 4 / 2) by (Z.div_mod_to_equations; lia).
    rewrite <- (IH (x / 4)) by (Z.div_mod_to_equations; lia).
    generalize (Z.land (x / 4 / 2) (fieldmask 1 4 k)). intros L.
    Z.div_mod_to_equations. lia.
Qed.

(** Second step: [(x & m2) + ((x >> 2) & m2)] adds the base-4 digits of
    each pair. *)
Lemma stage2 k :
  forall x, Z.land x (fieldmask 3 16 k) + Z.land (x / 4) (fieldmask 3 16 k)
            = pairsum 4 k x.
Proof.
  induction k as [|k IH]; intros x; cbn [fieldmask pairsum].
  - by rewrite !Z.land_0_r.
  - rewrite !land_m2. change (4 * 4) with 16.
    replace (x / 4 / 16) with (x / 16 / 4) by (Z.div_mod_to_equations; lia).
    rewrite <- (IH (x / 16)). lia.
Qed.

Lemma digits_le_head B c k x :
  0 < B -> 0 <= c -> digits_le B c k x -> x mod B <= c.
Proof.
  intros HB Hc. destruct k as [|k]; simpl.
  - intros ->. by rewrite Z.mod_0_l by lia.
  - by intros [? _].
Qed.

(** Third step: [(x + (x >> 4)) & m4] adds the base-16 digits of each pair,
    provided no sum of two neighbouring digits carries. *)
Lemma stage3 k :
  forall x, digits_le 16 6 (2 * k) x ->
            Z.land (x + x / 16) (fieldmask 15 256 k) = pairsum 16 k x.
Proof.
  induction k as [|k IH]; intros x Hx; cbn [fieldmask pairsum].
  - by rewrite Z.land_0_r.
  - replace (2 * S k)%nat with (S (S (2 * k))) in Hx by lia.
    destruct Hx as (H0 & H1 & Hx). rewrite div_div_const in Hx by lia.
    change (16 * 16) with 256 in *.
    pose proof (digits_le_head 16 6 _ _ ltac:(lia) ltac:(lia) Hx) as H2.
    rewrite land_m4. rewrite <- (IH (x / 256)) by done.
    replace ((x + x / 16) / 256) with (x / 256 + x / 256 / 16).
    2:{ rewrite div_div_const by lia. change (256 * 16) with 4096.
        Z.div_mod_to_equations. lia. }
    replace ((x + x / 16) mod 16) with (x mod 16 + (x / 16) mod 16).
    2:{ Z.div_mod_to_equations. lia. }
    reflexivity.
Qed.

Lemma pairsum_range B k :
  1 < B -> forall x, 0 <= pairsum B k x < cap (B * B) k.
Proof.
  intros HB. induction k as [|k IH]; intros x; cbn [pairsum cap]; [lia|].
  specialize (IH (x / (B * B))).
  pose proof (Z.mod_pos_bound x B ltac:(lia)).
  pose proof (Z.mod_pos_bound (x / B) B ltac:(lia)).
  nia.
Qed.

Lemma pairsum_split B k x :
  1 < B ->
  pairsum B (S k) x mod (B * B) = x mod B + (x / B) mod B
  /\ pairsum B (S k) x / (B * B) = pairsum B k (x / (B * B)).
Proof.
  intros HB. cbn [pairsum].
  pose proof (Z.mod_pos_bound x B ltac:(lia)).
  pose proof (Z.mod_pos_bound (x / B) B ltac:(lia)).
  assert (0 <= x mod B + (x / B) mod B < B * B) by nia.
  rewrite (Z.mul_comm (B * B)). split.
  - rewrite Z.mod_add by nia. by apply Z.mod_small.
  - rewrite Z.div_add by nia. rewrite Z.div_small by done. lia.
Qed.

(** Adding the digits of each pair keeps the sum of all digits. *)
Lemma dsum_pairsum B k :
  1 < B -> forall x, dsum (B * B) k (pairsum B k x) = dsum B (2 * k) x.
Proof.
  intros HB. induction k as [|k IH]; intros x; [done|].
  replace (2 * S k)%nat with (S (S (2 * k))) by lia.
  cbn [dsum]. destruct (pairsum_split B k x HB) as [-> ->].
  rewrite IH, div_div_const by lia. lia.
Qed.

Lemma pairsum_digits B k :
  1 < B -> forall x, digits_le (B * B) (2 * (B - 1)) k (pairsum B k x).
Proof.
  intros HB. induction k as [|k IH]; intros x; [done|].
  cbn [digits_le]. destruct (pairsum_split B k x HB) as [-> ->].
  split; [|apply IH].
  pose proof (Z.mod_pos_bound x B ltac:(lia)).
  pose proof (Z.mod_pos_bound (x / B) B ltac:(lia)). lia.
Qed.

Lemma land_u32 v m : 0 <= m < 2 ^ 32 -> Z.land (u32 v) m = Z.land v m.
Proof.
  intros Hm. unfold u32. rewrite <- Z.land_ones, <- Z.land_assoc by lia.
  f_equal. rewrite Z.land_comm, Z.land_ones by lia. by apply Z.mod_small.
Qed.

(** The last steps add the four bytes into the low one. *)
Lemma stage45 A B C D :
  0 <= A <= 30 -> 0 <= B <= 30 -> 0 <= C <= 30 -> 0 <= D <= 30 ->
  let t := A + 256 * (B + 256 * (C + 256 * (D + 256 * 0))) in
  let t1 := u32 (t + shr t 8) in
  Z.land (u32 (t1 + shr t1 16)) 0x7f = A + B + C + D
  /\ dsum 256 4 t = A + B + C + D.
Proof.
  intros HA HB HC HD t t1. subst t1 t. cbn [dsum].
  change 0x7f with (Z.ones 7). rewrite Z.land_ones by lia.
  rewrite !shr_div by lia. unfold u32.
  change (2 ^ 32) with 4294967296. change (2 ^ 8) with 256.
  change (2 ^ 16) with 65536. change (2 ^ 7) with 128.
  split; Z.div_mod_to_equations; lia.
Qed.

(** The word-parallel count is the number of set bits. *)
Lemma popCountUint32_bitcount x : is_word x -> popCountUint32 x = bitcount x.
Proof.
  intros Hx.
  assert (u32 (x - Z.land (shr x 1) m1) = pairsum 2 16 x) as H1.
  { rewrite shr_div by lia. change (2 ^ 1) with 2.
    change m1 with (fieldmask 1 4 16). rewrite stage1 by exact Hx.
    apply u32_small, (pairsum_range 2 16). lia. }
  assert (forall y, u32 (Z.land y m2 + Z.land (shr y 2) m2) = pairsum 4 8 y) as H2.
  { intros y. rewrite shr_div by lia. change (2 ^ 2) with 4.
    change m2 with (fieldmask 3 16 8). rewrite stage2.
    apply u32_small, (pairsum_range 4 8). lia. }
  assert (forall y, Z.land (u32 (pairsum 4 8 y + shr (pairsum 4 8 y) 4)) m4
                    = pairsum 16 4 (pairsum 4 8 y)) as H3.
  { intros y. rewrite land_u32 by (unfold m4; lia).
    rewrite shr_div by lia. change (2 ^ 4) with 16.
    change m4 with (fieldmask 15 256 4).
    apply (stage3 4), (pairsum_digits 4 8). lia. }
  unfold popCountUint32, bitcount. cbv zeta. rewrite H1, H2, H3.
  set (z := pairsum 4 8 (pairsum 2 16 x)).
  assert (dsum 2 32 x = dsum 256 4 (pairsum 16 4 z)) as ->.
  { etransitivity; [symmetry; exact (dsum_pairsum 2 16 ltac:(lia) x)|].
    etransitivity; [symmetry; exact (dsum_pairsum 4 8 ltac:(lia) _)|].
    symmetry. exact (dsum_pairsum 16 4 ltac:(lia) z). }
  cbn [pairsum].
  pose proof (Z.mod_pos_bound z 16 ltac:(lia)).
  pose proof (Z.mod_pos_bound (z / 16) 16 ltac:(lia)).
  pose proof (Z.mod_pos_bound (z / (16 * 16)) 16 ltac:(lia)).
  pose proof (Z.mod_pos_bound (z / (16 * 16) / 16) 16 ltac:(lia)).
  pose proof (Z.mod_pos_bound (z / (16 * 16) / (16 * 16)) 16 ltac:(lia)).
  pose proof (Z.mod_pos_bound (z / (16 * 16) / (16 * 16) / 16) 16 ltac:(lia)).
  pose proof (Z.mod_pos_bound (z / (16 * 16) / (16 * 16) / (16 * 16)) 16 ltac:(lia)).
  pose proof (Z.mod_pos_bound (z / (16 * 16) / (16 * 16) / (16 * 16) / 16) 16 ltac:(lia)).
  edestruct (stage45
    (z mod 16 + (z / 16) mod 16)
    ((z / (16 * 16)) mod 16 + (z / (16 * 16) / 16) mod 16)
    ((z / (16 * 16) / (16 * 16)) mod 16 + (z / (16 * 16) / (16 * 16) / 16) mod 16)
    ((z / (16 * 16) / (16 * 16) / (16 * 16)) mod 16
     + (z / (16 * 16) / (16 * 16) / (16 * 16) / 16) mod 16))
    as [H45 Hd]; [lia .. |].
  change (16 * 16) with 256 in *.
  rewrite Hd. exact H45.
Qed.

Lemma land_half x y : Z.land x y / 2 = Z.land (x / 2) (y / 2).
Proof.
  change 2 with (2 ^ 1). rewrite <- !Z.shiftr_div_pow2 by lia.
  apply Z.shiftr_land.
Qed.

Lemma ldiff_half x y : Z.ldiff x y / 2 = Z.ldiff (x / 2) (y / 2).
Proof.
  change 2 with (2 ^ 1). rewrite <- !Z.shiftr_div_pow2 by lia.
  apply Z.shiftr_ldiff.
Qed.

(** The bits of [x] are those it shares with [y] and those it does not. *)
Lemma dsum2_split k :
  forall x y, dsum 2 k (Z.land x y) + dsum 2 k (Z.ldiff x y) = dsum 2 k x.
Proof.
  induction k as [|k IH]; intros x y; cbn [dsum]; [done|].
  rewrite land_half, ldiff_half, <- (IH (x / 2) (y / 2)).
  rewrite <- !Z.bit0_mod, Z.land_spec, Z.ldiff_spec.
  destruct (Z.testbit x 0), (Z.testbit y 0); simpl; lia.
Qed.

Lemma dsum2_range k x : 0 <= dsum 2 k x <= Z.of_nat k.
Proof.
  revert x. induction k as [|k IH]; intros x; cbn [dsum]; [lia|].
  specialize (IH (x / 2)). pose proof (Z.mod_pos_bound x 2 ltac:(lia)). lia.
Qed.

Lemma popCountUint32_range x : is_word x -> 0 <= popCountUint32 x <= 32.
Proof.
  intros Hx. rewrite popCountUint32_bitcount by done. apply (dsum2_range 32).
Qed.

Lemma popCountUint32_split x y :
  is_word x ->
  popCountUint32 (andnot x y) + popCountUint32 (Z.land x y) = popCountUint32 x.
Proof.
  intros Hx.
  rewrite !popCountUint32_bitcount
    by (done || by apply is_word_andnot || by apply is_word_land).
  unfold bitcount, andnot. rewrite Z.add_comm. apply dsum2_split.
Qed.

(** ** Counting *)

Lemma Count_loop_total (l : list Z) :
  forall acc,
    fold_left (fun sum w => u32 (sum + popCountUint32 w)) l (u32 acc)
    = u32 (acc + total l).
Proof.
  induction l as [|w l IH]; intros acc; simpl.
  - by rewrite Z.add_0_r.
  - assert (u32 (u32 acc + popCountUint32 w) = u32 (acc + popCountUint32 w)) as ->
      by (unfold u32; apply Zplus_mod_idemp_l).
    rewrite IH. f_equal. lia.
Qed.

Lemma total_range (l : list Z) :
  Forall is_word l -> 0 <= total l <= 32 * Z.of_nat (length l).
Proof.
  induction 1 as [|w l Hw _ IH]; simpl; [lia|].
  pose proof (popCountUint32_range w Hw). lia.
Qed.

Lemma Count_total s : wf s -> Count s = total (b s).
Proof.
  intros [Hn Hl Hw]. unfold Count.
  change 0 with (u32 0) at 1. rewrite Count_loop_total. simpl.
  pose proof (total_range _ Hw). pose proof (wordsNeeded_bounds _ Hn).
  apply u32_small. lia.
Qed.

Lemma total_app (l k : list Z) : total (l ++ k) = total l + total k.
Proof. induction l as [|w l IH]; simpl; lia. Qed.

Lemma total_split (l : list Z) :
  Forall is_word l ->
  forall k, total (zip_with andnot l k ++ drop (length k) l)
            + total (zip_with Z.land l k) = total l.
Proof.
  induction 1 as [|x l Hx _ IH]; intros [|y k]; simpl; try lia.
  specialize (IH k). pose proof (popCountUint32_split x y Hx). lia.
Qed.

Lemma Difference_wf s ob d :
  wf s -> wf ob -> Difference s ob = Some d -> wf d.
Proof.
  intros Hs Hob. rewrite Difference_spec by done. intros [= <-].
  destruct Hs as [Hn Hl Hw]. split; simpl; [done | |].
  - rewrite length_app, length_zip_with, length_drop. lia.
  - apply Forall_app. split; [|by apply Forall_drop].
    apply (Forall_zip_with_fst _ is_word is_word); [done|].
    apply Forall_true. intros y x Hx. by apply is_word_andnot.
Qed.

Lemma Intersection_wf a c r :
  wf a -> wf c -> Intersection a c = Some r -> wf r.
Proof.
  assert (forall s ob, wf s -> wf ob -> n s <= n ob ->
            wf (mkBitset (n s) (zip_with Z.land (b s) (b ob)))) as Hsorted.
  { intros s ob Hs Hob Hle. pose proof (wf_mono_length s ob Hs Hob Hle).
    destruct Hs as [Hn Hl Hw]. split; simpl; [done | |].
    - rewrite length_zip_with. lia.
    - apply (Forall_zip_with_fst _ is_word is_word); [done|].
      apply Forall_true. intros y x Hx. by apply is_word_land. }
  intros Ha Hc. rewrite Intersection_spec by done. intros [= <-].
  unfold sortByLength. destruct (Z.leb_spec (n a) (n c)); apply Hsorted; auto; lia.
Qed.

(** X28: on bitsets that satisfy the representation invariant, of equal or
    different lengths, the counts of the difference and of the
    intersection add up to the count of the receiver, as integers and
    hence also in [uint32] arithmetic. *)
Theorem difference_intersection_count (a c : Bitset) :
  wf a -> wf c ->
  exists d i,
    Difference a c = Some d /\ Intersection a c = Some i
    /\ Count d + Count i = Count a
    /\ u32 (Count d + Count i) = Count a.
Proof.
  intros Ha Hc.
  destruct (Difference a c) as [d|] eqn:Hd;
    [|by rewrite Difference_spec in Hd].
  destruct (Intersection a c) as [i|] eqn:Hi;
    [|by rewrite Intersection_spec in Hi].
  pose proof (Difference_wf a c d Ha Hc Hd) as Hwd.
  pose proof (Intersection_wf a c i Ha Hc Hi) as Hwi.
  exists d, i. split; [done|]. split; [done|].
  assert (Count d + Count i = Count a) as Hsum.
  { rewrite !Count_total by done.
    rewrite Difference_spec in Hd by done. injection Hd as <-.
    rewrite Intersection_spec in Hi by done. injection Hi as <-.
    unfold sortByLength. destruct (Z.leb_spec (n a) (n c)); simpl.
    - apply total_split, (wf_words a Ha).
    - rewrite (zip_with_comm Z.land (b c) (b a)) by apply Z.land_comm.
      apply total_split, (wf_words a Ha). }
  split; [done|]. rewrite Hsum.
  rewrite Count_total by done. apply u32_small.
  pose proof (total_range _ (wf_words a Ha)).
  pose proof (wordsNeeded_bounds _ (wf_n a Ha)).
  pose proof (wf_len a Ha). lia.
Qed.

Lemma difference_intersection_count_witness :
  wf (mkBitset 40 [7; 129]) /\ wf (mkBitset 3 [5]) /\
  exists d i,
    Difference (mkBitset 40 [7; 129]) (mkBitset 3 [5]) = Some d
    /\ Intersection (mkBitset 40 [7; 129]) (mkBitset 3 [5]) = Some i
    /\ Count d + Count i = Count (mkBitset 40 [7; 129])
    /\ u32 (Count d + Count i) = Count (mkBitset 40 [7; 129]).
Proof.
  assert (wf (mkBitset 40 [7; 129])) as Ha.
  { apply wfb_wf. reflexivity. }
  assert (wf (mkBitset 3 [5])) as Hc.
  { apply wfb_wf. reflexivity. }
  split; [exact Ha|]. split; [exact Hc|].
  exact (difference_intersection_count _ _ Ha Hc).
Defined.

(** C7: two bitsets from the constructor for which the equation has no
    value: the difference is the receiver, of count 0, but [Intersection]
    fails in both orders, reading word 0 of the longer bitset, which has
    no word, the word count of its length [2^32 - 31] having wrapped. *)
Theorem difference_intersection_count_overflow :
  Difference (New 5) (New 4294967265) = Some (New 5)
  /\ Count (New 5) = 0
  /\ Intersection (New 5) (New 4294967265) = None
  /\ Intersection (New 4294967265) (New 5) = None
  /\ ~ (exists d i,
          Difference (New 5) (New 4294967265) = Some d
          /\ Intersection (New 5) (New 4294967265) = Some i
          /\ Count d + Count i = Count (New 5))
  /\ ~ (exists d i,
          Difference (New 4294967265) (New 5) = Some d
          /\ Intersection (New 4294967265) (New 5) = Some i
          /\ Count d + Count i = Count (New 4294967265)).
Proof.
  do 4 (split; [reflexivity|]).
  split.
  - intros (d & i & _ & Hi & _). vm_compute in Hi. discriminate.
  - intros (d & i & _ & Hi & _). vm_compute in Hi. discriminate.
Qed.

(** ** Complement *)

Lemma String_loop_spec (l : list Z) :
  forall count i acc,
    -1 <= i < Z.of_nat (length l) -> i + 1 <= Z.of_nat count ->
    String_loop count i l acc = Some (acc ++ rev (take (Z.to_nat (i + 1)) l)).
Proof.
  induction count as [|count IH]; intros i acc Hi Hc; simpl.
  - replace i with (-1) by lia. simpl. by rewrite app_nil_r.
  - destruct (Z.leb_spec 0 i).
    + destruct (index_is_Some l i) as [w Hw]; [lia|]. rewrite Hw. simpl.
      rewrite IH by lia. f_equal.
      rewrite index_lookup in Hw by lia.
      replace (Z.to_nat (i + 1)) with (S (Z.to_nat i)) by lia.
      rewrite (take_S_r _ _ w) by done.
      replace (i - 1 + 1) with i by lia.
      rewrite rev_app_distr. simpl. by rewrite <- app_assoc.
    + replace i with (-1) by lia. simpl. by rewrite app_nil_r.
Qed.

Lemma String_wf s : wf s -> String_ s = Some (rev (b s)).
Proof.
  intros [Hn Hl Hw]. pose proof (wordsNeeded_bounds _ Hn). unfold String_.
  rewrite u32_small by lia.
  rewrite String_loop_spec by lia. simpl. do 2 f_equal.
  apply take_ge. lia.
Qed.

(** The mask of [cleanLastWord] keeps the bits below [r]. *)
Lemma clean_mask r : 0 < r < 32 -> shr allBits (32 - r) = Z.ones r.
Proof.
  intros Hr. unfold shr, allBits. change 0xffffffff with (Z.ones 32).
  apply Z.bits_inj'. intros j Hj.
  rewrite Z.shiftr_spec, !Z.testbit_ones_nonneg by lia.
  destruct (Z.ltb_spec (j + (32 - r)) 32), (Z.ltb_spec j r); done || lia.
Qed.


Lemma wf_last s : wf s -> exists init wl, b s = init ++ [wl].
Proof.
  intros [Hn Hl _]. pose proof (wordsNeeded_bounds _ Hn).
  destruct (b s) as [|x l] using rev_ind; [simpl in Hl; lia | eauto].
Qed.

Lemma Complement_even s :
  wf s -> n s mod 32 = 0 ->
  Complement s = Some (mkBitset (n s) (map not32 (b s))).
Proof.
  intros Hwf Hr. unfold Complement. rewrite String_wf by done. simpl.
  pose proof (length_New_wf s Hwf) as Hlen. simpl in Hlen.
  rewrite not_loop_spec by lia.
  rewrite drop_ge, app_nil_r by lia.
  unfold cleanLastWord, isEven, lWord. simpl. by rewrite Hr.
Qed.

Lemma cleanLastWord_odd k (init : list Z) wl :
  0 <= k <= maxLen -> k mod 32 <> 0 ->
  Z.of_nat (length init) + 1 = wordsNeeded k ->
  cleanLastWord (mkBitset k (init ++ [wl]))
  = Some (mkBitset k (init ++ [Z.land wl (Z.ones (k mod 32))])).
Proof.
  intros Hk Hr Hl. pose proof (wordsNeeded_bounds _ Hk).
  unfold cleanLastWord, isEven, lWord. simpl.
  destruct (Z.eqb_spec (k mod 32) 0); [done|]. simpl.
  replace (u32 (wordsNeeded k - 1)) with (Z.of_nat (length init))
    by (rewrite u32_small; lia).
  rewrite index_nat, list_lookup_middle by (rewrite ?length_app; simpl; lia || done).
  simpl. rewrite store_middle. simpl.
  rewrite (clean_mask (k mod 32)); [done|].
  pose proof (Z.mod_pos_bound k 32). lia.
Qed.

Lemma Complement_odd s init wl :
  wf s -> n s mod 32 <> 0 -> b s = init ++ [wl] ->
  Complement s
  = Some (mkBitset (n s)
            (map not32 init ++ [Z.land (not32 wl) (Z.ones (n s mod 32))])).
Proof.
  intros Hwf Hr Hb. unfold Complement. rewrite String_wf by done. simpl.
  pose proof (length_New_wf s Hwf) as Hlen. simpl in Hlen.
  rewrite not_loop_spec by lia.
  rewrite drop_ge, app_nil_r by lia.
  pose proof (wf_len s Hwf) as Hl. rewrite Hb in *.
  rewrite length_app in Hl. simpl in Hl.
  rewrite map_app. simpl. apply cleanLastWord_odd.
  - apply (wf_n s Hwf).
  - done.
  - rewrite length_map. lia.
Qed.

Lemma Complement_wf s :
  wf s -> exists c, Complement s = Some c /\ wf c /\ n c = n s.
Proof.
  intros Hwf. pose proof Hwf as [Hn Hl Hw].
  destruct (Z.eq_dec (n s mod 32) 0) as [Hr|Hr].
  - rewrite Complement_even by done. eexists. split; [done|]. split; [|done].
    split; simpl; [done | by rewrite length_map |].
    change (map not32 (b s)) with (not32 <$> b s). apply Forall_fmap.
    eapply Forall_impl; [|exact Hw]. intros w. apply is_word_not32.
  - destruct (wf_last s Hwf) as (init & wl & Hb).
    rewrite (Complement_odd s init wl) by done.
    eexists. split; [done|]. split; [|done]. rewrite Hb in *.
    apply Forall_app in Hw as [Hinit Hwl]. inversion Hwl; subst.
    split; simpl; [done | |].
    + rewrite length_app, length_map in *. simpl in *. lia.
    + apply Forall_app. split.
      * change (map not32 init) with (not32 <$> init). apply Forall_fmap.
        eapply Forall_impl; [|exact Hinit]. intros w. apply is_word_not32.
      * constructor; [by apply is_word_land, is_word_not32 | constructor].
Qed.

Lemma index_None_ge (l : list Z) i :
  Z.of_nat (length l) <= i -> index l i = None.
Proof. intros H. unfold index. by rewrite in_range_false. Qed.

(** On a bitset of non-zero length, [Complement] leaves no bit at or past
    the length. *)
Lemma Complement_padding s :
  wf s -> 0 < n s ->
  exists c, Complement s = Some c /\ n c = n s /\ padding_zero c.
Proof.
  intros Hwf Hpos. pose proof Hwf as [Hn Hl Hw].
  rewrite wordsNeeded_ceil in Hl by lia. unfold maxLen in Hn.
  destruct (Z.eq_dec (n s mod 32) 0) as [Hr|Hr].
  - rewrite Complement_even by done. eexists. split; [done|]. split; [done|].
    intros j Hj. simpl in *. unfold getbit.
    rewrite index_None_ge; [done|]. rewrite length_map, widx_div.
    Z.div_mod_to_equations. lia.
  - destruct (wf_last s Hwf) as (init & wl & Hb).
    rewrite (Complement_odd s init wl) by done.
    eexists. split; [done|]. split; [done|].
    rewrite Hb, length_app in Hl. simpl in Hl.
    intros j Hj. simpl in *. unfold getbit. rewrite widx_div.
    destruct (Z.eq_dec (j / 32) (Z.of_nat (length init))) as [Heq|Hne].
    + rewrite Heq, <- (length_map not32 init), index_nat, list_lookup_middle
        by (rewrite ?length_app; simpl; lia || done).
      pose proof (Z.mod_pos_bound (n s) 32 ltac:(lia)).
      pose proof (Z.mod_pos_bound j 32 ltac:(lia)).
      rewrite Z.land_spec, Z.testbit_ones_nonneg by lia.
      destruct (Z.ltb_spec (j mod 32) (n s mod 32)); [|apply andb_false_r].
      Z.div_mod_to_equations. lia.
    + rewrite index_None_ge; [done|]. rewrite length_app, length_map. simpl.
      Z.div_mod_to_equations. lia.
Qed.

(** ** Double complement *)



(** A bitset with zero padding is left unchanged by [cleanLastWord]. *)
Lemma padding_zero_clean s : wf s -> padding_zero s -> cleanLastWord s = Some s.
Proof.
  intros Hwf Hpad. pose proof Hwf as [Hn Hl Hw].
  destruct (Z.eq_dec (n s mod 32) 0) as [Hr|Hr].
  { unfold cleanLastWord, isEven, lWord. by rewrite Hr. }
  destruct (wf_last s Hwf) as (init & wl & Hb).
  destruct s as [k ws]. simpl in *. subst ws.
  rewrite length_app in Hl. simpl in Hl.
  rewrite cleanLastWord_odd by (done || lia).
  enough (Z.land wl (Z.ones (k mod 32)) = wl) as -> by done.
  apply Forall_app in Hw as [_ Hwl]. inversion Hwl as [|? ? Hword _]; subst.
  apply is_word_bits in Hword as [_ Hhigh].
  assert (0 < k) by (destruct (Z.eq_dec k 0) as [->|]; [done | lia]).
  rewrite wordsNeeded_ceil in Hl by lia. unfold maxLen in Hn.
  pose proof (Z.mod_pos_bound k 32 ltac:(lia)).
  apply Z.bits_inj'. intros j Hj.
  rewrite Z.land_spec, Z.testbit_ones_nonneg by lia.
  destruct (Z.ltb_spec j (k mod 32)); [apply andb_true_r|].
  rewrite andb_false_r. symmetry.
  destruct (Z.lt_ge_cases j 32) as [Hlt|Hge]; [|by apply Hhigh].
  specialize (Hpad (32 * Z.of_nat (length init) + j)). simpl in Hpad.
  unfold getbit in Hpad. rewrite widx_div in Hpad.
  replace ((32 * Z.of_nat (length init) + j) / 32) with (Z.of_nat (length init))
    in Hpad by (Z.div_mod_to_equations; lia).
  replace ((32 * Z.of_nat (length init) + j) mod 32) with j
    in Hpad by (Z.div_mod_to_equations; lia).
  rewrite index_nat, list_lookup_middle in Hpad
    by (rewrite ?length_app; simpl; lia || done).
  apply Hpad. Z.div_mod_to_equations. lia.
Qed.






(** ** The invariant along the remaining operations *)

Lemma New_spec k :
  0 <= k <= maxLen ->
  Len (New k) = k
  /\ Z.of_nat (length (b (New k))) = Z.max 1 ((k + 31) / 32)
  /\ Forall (fun w => w = 0) (b (New k)).
Proof.
  intros Hk. pose proof (wordsNeeded_bounds k Hk). split; [done|]. split.
  - simpl. rewrite length_make by lia. by apply wordsNeeded_max.
  - simpl. unfold make. by apply Forall_replicate.
Qed.

Lemma Copy_wf s c : wf s -> wf c -> wf (fst (Copy s c)).
Proof.
  intros Hs [Hn Hl Hw]. split; simpl; [done | |].
  - unfold copy. rewrite length_app, length_take, length_drop. lia.
  - unfold copy. apply Forall_app. split.
    + apply Forall_take, (wf_words s Hs).
    + by apply Forall_drop.
Qed.

Lemma ClearAll_wf s : wf s -> wf (ClearAll s).
Proof.
  intros [Hn Hl Hw]. split; simpl; [done | by rewrite length_replicate |].
  apply Forall_replicate, is_word_0.
Qed.

Lemma sorted_result_wf (op : Z -> Z -> Z) a c :
  (forall x y, is_word x -> is_word y -> is_word (op x y)) ->
  wf a -> wf c ->
  wf (let '(s, ob) := sortByLength a c in
      mkBitset (n ob) (zip_with op (b s) (b ob) ++ drop (length (b s)) (b ob))).
Proof.
  intros Hop.
  assert (forall s ob, wf s -> wf ob -> n s <= n ob ->
            wf (mkBitset (n ob)
                  (zip_with op (b s) (b ob) ++ drop (length (b s)) (b ob))))
    as Hsorted.
  { intros s ob Hs Hob Hle. pose proof (wf_mono_length s ob Hs Hob Hle).
    destruct Hob as [Hn Hl Hw]. split; simpl; [done | |].
    - rewrite length_app, length_zip_with, length_drop. lia.
    - apply Forall_app. split; [|by apply Forall_drop].
      apply (Forall_zip_with_fst _ is_word is_word); [apply (wf_words s Hs)|].
      eapply Forall_impl; [|exact Hw]. intros y Hy x Hx. by apply Hop. }
  intros Ha Hc. unfold sortByLength.
  destruct (Z.leb_spec (n a) (n c)); apply Hsorted; auto; lia.
Qed.

Lemma Union_wf a c r : wf a -> wf c -> Union a c = Some r -> wf r.
Proof.
  intros Ha Hc. rewrite Union_spec by done. intros [= <-].
  apply sorted_result_wf; auto using is_word_lor.
Qed.

Lemma SymmetricDifference_wf a c r :
  wf a -> wf c -> SymmetricDifference a c = Some r -> wf r.
Proof.
  intros Ha Hc. rewrite SymmetricDifference_spec by done. intros [= <-].
  apply sorted_result_wf; auto using is_word_lxor.
Qed.

(** The representation invariant holds of every reachable bitset. *)
Lemma reachable_wf s : reachable s -> wf s.
Proof.
  induction 1 as
    [ k Hk | s i s' _ IH Hi HS | s i s' _ IH Hi HC | s i s' _ IH Hi HF
    | s _ IH | s _ IH | s c _ IHs _ IHc
    | s t r _ IHs _ IHt Hr | s t r _ IHs _ IHt Hr | s t r _ IHs _ IHt Hr
    | s t r _ IHs _ IHt Hr | s r _ IH Hr ].
  - by apply New_wf.
  - destruct (Set_in_range s i IH Hi) as (s1 & HS1 & Hwf & _). congruence.
  - destruct (Z.lt_ge_cases i (n s)) as [Hlt|Hge].
    + destruct (Clear_in_range s i IH) as (s1 & HC1 & Hwf & _); [lia | congruence].
    + rewrite Clear_out_of_range in HC by done. congruence.
  - destruct (Z.lt_ge_cases i (n s)) as [Hlt|Hge].
    + destruct (Flip_inside s i IH) as (s1 & v & HF1 & Hwf & _); [lia | congruence].
    + destruct (Flip_growth s i IH) as (s1 & HF1 & Hwf & _); [lia | congruence].
  - by apply ClearAll_wf.
  - by rewrite Clone_wf.
  - by apply Copy_wf.
  - exact (Difference_wf _ _ _ IHs IHt Hr).
  - exact (Intersection_wf _ _ _ IHs IHt Hr).
  - exact (Union_wf _ _ _ IHs IHt Hr).
  - exact (SymmetricDifference_wf _ _ _ IHs IHt Hr).
  - destruct (Complement_wf s IH) as (c & Hc & Hwf & _). congruence.
Qed.

(** On well-formed operands no set-algebra operation reads or writes a
    word out of bounds. *)
Lemma set_algebra_in_bounds a c :
  wf a -> wf c ->
  is_Some (Difference a c) /\ is_Some (Intersection a c)
  /\ is_Some (Union a c) /\ is_Some (SymmetricDifference a c).
Proof.
  intros Ha Hc.
  rewrite Difference_spec, Intersection_spec, Union_spec,
    SymmetricDifference_spec by done.
  repeat split; eauto.
Qed.

(** ** Indices and lengths past [maxLen] *)

(** [Set] at an index from [maxLen] on fails on every well-formed bitset:
    the word that holds the bit has index [2^27 - 1], and no supported
    length has that many words. *)
Lemma Set_past_maxLen s i :
  wf s -> maxLen <= i <= MaxUint32 -> Set_ s i = None.
Proof.
  intros Hwf Hi. pose proof Hwf as [Hn Hl Hw].
  pose proof (wordsNeeded_bounds _ Hn) as Hb.
  unfold maxLen, MaxUint32 in *. unfold Set_.
  destruct (Z.leb_spec (n s) i); [|lia].
  assert (widx i = 134217727) as Hidx
    by (rewrite widx_div; Z.div_mod_to_equations; lia).
  assert (Z.of_nat (length (b (grow s i))) <= 134217727) as Hlen.
  { unfold grow. rewrite (wf_len_u32 s Hwf). simpl.
    destruct (Z.ltb_spec (wordsNeeded (n s)) (wordsNeeded (u32 (i + 1)))) as [Hlt|Hge];
      [|lia].
    rewrite length_app, Nat2Z.inj_add, length_make by lia.
    assert (wordsNeeded (u32 (i + 1)) <= 134217727); [|lia].
    unfold wordsNeeded, MaxUint32, lWord, lLog2Word.
    destruct (Z.eqb_spec (u32 (i + 1)) 0); [lia|].
    destruct (Z.eqb_spec (u32 (i + 1)) 4294967295); [done|].
    rewrite shr_div by lia. unfold u32. change (2 ^ 32) with 4294967296.
    change (2 ^ 5) with 32. Z.div_mod_to_equations. lia. }
  rewrite Hidx, index_None_ge; [done | lia].
Qed.

(** ** The code at the inputs where it departs from the specification *)

(** C1: a flip at the boundary of a 32-bit bitset grows it to length 33,
    as the specification says, but leaves bit 32 clear: [Set] has set the
    bit and the exclusive or that follows clears it again. *)
Theorem Flip_past_length_clears :
  exists s, Flip (New 32) 32 = Some s /\ Len s = 33 /\ Test s 32 = Some false.
Proof. eexists. repeat split. Qed.

(** C2: the complement of the empty bitset has length 0 and one word with
    all 32 bits set: [cleanLastWord] takes length 0 for a multiple of the
    word size and masks nothing, so that [Count] is 32 on an empty bitset. *)
Theorem Complement_empty_unmasked :
  Complement (New 0) = Some (mkBitset 0 [allBits])
  /\ getbit [allBits] 0 = true
  /\ ~ padding_zero (mkBitset 0 [allBits])
  /\ Count (mkBitset 0 [allBits]) = 32.
Proof.
  split; [reflexivity|]. split; [reflexivity|]. split; [|reflexivity].
  intros H. specialize (H 0). simpl in H. discriminate H. lia.
Qed.

(** C3: [Set] at an index near the greatest one fails on the empty bitset.
    At [2^32 - 6] the word count for [i + 1] wraps to 0, nothing is
    appended, and the word of index [2^27 - 1] that holds the bit is not
    there; at the greatest index [i + 1] itself wraps to 0 and the length
    becomes 0. *)
Theorem Set_near_MaxUint32_fails :
  Set_ (New 0) 4294967290 = None
  /\ grow (New 0) 4294967290 = mkBitset 4294967291 [0]
  /\ widx 4294967290 = 134217727
  /\ Set_ (New 0) MaxUint32 = None
  /\ grow (New 0) MaxUint32 = mkBitset 0 [0].
Proof. repeat split. Qed.

(** C4: for the length [2^32 - 31] the word count wraps to 0 and [New]
    allocates no word; for the greatest length the special case of
    [wordsNeeded] gives one word less than [ceil(n / 32)]. *)
Theorem New_word_count_wraps :
  wordsNeeded 4294967265 = 0
  /\ New 4294967265 = mkBitset 4294967265 []
  /\ Z.max 1 ((4294967265 + 31) / 32) = 134217728
  /\ wordsNeeded MaxUint32 = 134217727
  /\ Z.max 1 ((MaxUint32 + 31) / 32) = 134217728.
Proof. repeat split. Qed.

(** C8: [Set] at index [2^32 - 32] on the empty bitset sets the length to
    [i + 1] but appends no word, the word count for [i + 1] having wrapped
    to 0, and fails on the write: there is no state after the call in
    which bit [i] tests true. *)
Theorem Set_at_maxLen_fails :
  Set_ (New 0) 4294967264 = None
  /\ wordsNeeded (u32 (4294967264 + 1)) = 0
  /\ grow (New 0) 4294967264 = mkBitset 4294967265 [0]
  /\ index [0] (widx 4294967264) = None.
Proof. repeat split. Qed.

(** C10: two bitsets from the constructor whose word counts are not
    ordered as their lengths: the longer one has no word, and
    [Intersection] and [SymmetricDifference] read its word 0. *)
Theorem Intersection_out_of_bounds :
  n (New 5) <= n (New 4294967265)
  /\ length (b (New 5)) = 1%nat /\ length (b (New 4294967265)) = 0%nat
  /\ Intersection (New 5) (New 4294967265) = None
  /\ Intersection (New 4294967265) (New 5) = None
  /\ SymmetricDifference (New 5) (New 4294967265) = None.
Proof. repeat split. simpl. lia. Qed.

(** * Bit-level behaviour of the operations *)

(** ** Bits of the word sequence *)

(** Reading a bit past the words reads a zero word. *)
Lemma getbit_nth (l : list Z) j :
  0 <= j -> getbit l j = Z.testbit (nth (Z.to_nat (j / 32)) l 0) (j mod 32).
Proof.
  intros Hj. unfold getbit. rewrite widx_div.
  assert (0 <= j / 32) by (Z.div_mod_to_equations; lia).
  rewrite nth_lookup.
  destruct (Z.lt_ge_cases (j / 32) (Z.of_nat (length l))) as [Hlt|Hge].
  - rewrite index_lookup by lia.
    destruct (lookup_lt_is_Some_2 l (Z.to_nat (j / 32))) as [w ->]; [lia | done].
  - rewrite index_None_ge by done.
    rewrite lookup_ge_None_2 by lia. simpl. by rewrite Z.bits_0.
Qed.

Lemma Test_getbit s j :
  wf s -> 0 <= j -> Test s j = Some ((j <? n s) && getbit (b s) j).
Proof.
  intros Hwf Hj. destruct (Z.ltb_spec j (n s)) as [Hlt|Hge].
  - destruct (Test_index s j Hwf) as (w & Hw & ->); [lia|].
    unfold getbit. by rewrite Hw.
  - unfold Test. by destruct (Z.leb_spec (n s) j); [|lia].
Qed.

Lemma Test_padding_zero s j :
  wf s -> padding_zero s -> 0 <= j -> Test s j = Some (getbit (b s) j).
Proof.
  intros Hwf Hpad Hj. rewrite Test_getbit by done.
  destruct (Z.ltb_spec j (n s)) as [Hlt|Hge]; [done|].
  by rewrite Hpad.
Qed.

Lemma nth_insert_Z (l : list Z) (k k' : nat) v :
  (k < length l)%nat ->
  nth k' (<[k := v]> l) 0 = if decide (k' = k) then v else nth k' l 0.
Proof.
  intros Hk. rewrite !nth_lookup. case_decide as Heq.
  - subst. by rewrite list_lookup_insert_eq.
  - by rewrite list_lookup_insert_ne.
Qed.

Lemma testbit_mask i m :
  0 <= i -> 0 <= m -> Z.testbit (mask i) m = (i mod 32 =? m).
Proof.
  intros Hi Hm. rewrite mask_pow2 by done.
  apply Z.pow2_bits_eqb. apply Z.mod_pos_bound. lia.
Qed.

Lemma same_bit i j :
  0 <= i -> 0 <= j ->
  (j / 32 = i / 32 /\ i mod 32 = j mod 32) <-> j = i.
Proof. intros Hi Hj. split; [|by intros ->]. Z.div_mod_to_equations. lia. Qed.

(** The bits after the word that holds bit [i] has been rewritten with a
    bitwise combination with the mask of [i]. *)
Lemma getbit_update (l : list Z) i w (f : Z -> Z) (g : bool -> bool -> bool) :
  0 <= i -> index l (widx i) = Some w ->
  (forall m, 0 <= m -> Z.testbit (f w) m = g (Z.testbit w m) (i mod 32 =? m)) ->
  (forall x, g x false = x) ->
  forall j, 0 <= j ->
    getbit (<[Z.to_nat (widx i) := f w]> l) j = g (getbit l j) (j =? i).
Proof.
  intros Hi Hw Hf Hg j Hj.
  apply index_Some_range in Hw as Hr.
  rewrite index_lookup in Hw by done. rewrite widx_div in *.
  rewrite !getbit_nth, nth_insert_Z by lia.
  assert (0 <= j / 32) by (Z.div_mod_to_equations; lia).
  assert (0 <= j mod 32) by (apply Z.mod_pos_bound; lia).
  case_decide as Heq.
  - assert (j / 32 = i / 32) as Hq by lia.
    rewrite Heq, nth_lookup, Hw. simpl. rewrite Hf by done.
    f_equal. destruct (Z.eqb_spec (i mod 32) (j mod 32)) as [Hm|Hm].
    + symmetry. apply Z.eqb_eq. by apply same_bit.
    + symmetry. apply Z.eqb_neq. intros ->. lia.
  - assert ((j =? i) = false) as -> by (apply Z.eqb_neq; intros ->; lia).
    by rewrite Hg.
Qed.

Lemma getbit_app_zeros (l : list Z) (k : nat) j :
  0 <= j -> getbit (l ++ replicate k 0) j = getbit l j.
Proof.
  intros Hj. rewrite !getbit_nth by done. f_equal.
  rewrite !nth_lookup.
  destruct (Nat.lt_ge_cases (Z.to_nat (j / 32)) (length l)) as [Hlt|Hge].
  - by rewrite lookup_app_l.
  - rewrite lookup_app_r, (lookup_ge_None_2 l) by lia. simpl.
    destruct (replicate k 0 !! _) as [x|] eqn:Hx; [|done].
    apply lookup_replicate in Hx as [-> _]. done.
Qed.

Lemma getbit_zeros (k : nat) j : 0 <= j -> getbit (replicate k 0) j = false.
Proof.
  intros Hj. rewrite getbit_nth, nth_lookup by done.
  destruct (replicate k 0 !! _) as [x|] eqn:Hx; simpl; [|apply Z.bits_0].
  apply lookup_replicate in Hx as [-> _]. apply Z.bits_0.
Qed.

(** ** The bits after [Set], [Clear] and [Flip] *)

Lemma grow_bits s i j :
  wf s -> n s <= i < maxLen -> 0 <= j ->
  getbit (b (grow s i)) j = getbit (b s) j.
Proof.
  intros Hwf Hi Hj. destruct (grow_spec s i Hwf Hi) as (_ & _ & k & ->).
  by apply getbit_app_zeros.
Qed.

Lemma Set_bits s i :
  wf s -> 0 <= i < maxLen ->
  exists s', Set_ s i = Some s' /\ wf s' /\ n s' = Z.max (n s) (i + 1)
             /\ forall j, 0 <= j ->
                  getbit (b s') j = getbit (b s) j || (j =? i).
Proof.
  intros Hwf Hi. unfold Set_.
  set (s1 := if n s <=? i then grow s i else s).
  assert (wf s1 /\ n s1 = Z.max (n s) (i + 1)
          /\ forall j, 0 <= j -> getbit (b s1) j = getbit (b s) j)
    as (Hwf1 & Hn1 & Hb1).
  { subst s1. destruct (Z.leb_spec (n s) i).
    - destruct (grow_spec s i Hwf) as (? & ? & _); [lia|].
      split; [done|]. split; [lia|]. intros j Hj. apply grow_bits; done || lia.
    - split; [done|]. split; [lia | done]. }
  destruct (wf_index s1 i Hwf1) as (w & Hw & Hword & Hst); [lia|].
  rewrite Hw. simpl. rewrite Hst. simpl. eexists. split; [done|].
  split; [|split; [done|]].
  - apply wf_update; [done|]. apply is_word_lor; [done | apply is_word_mask; lia].
  - intros j Hj. simpl. rewrite <- Hb1 by done.
    apply (getbit_update _ i w (fun w => Z.lor w (mask i)) orb);
      [lia | done | | apply orb_false_r | done].
    intros m Hm. by rewrite Z.lor_spec, testbit_mask by lia.
Qed.

Lemma Clear_bits s i :
  wf s -> 0 <= i < n s ->
  exists s', Clear s i = Some s' /\ wf s' /\ n s' = n s
             /\ forall j, 0 <= j ->
                  getbit (b s') j = getbit (b s) j && negb (j =? i).
Proof.
  intros Hwf Hi. unfold Clear. destruct (Z.leb_spec (n s) i); [lia|].
  destruct (wf_index s i Hwf Hi) as (w & Hw & Hword & Hst).
  rewrite Hw. simpl. rewrite Hst. simpl. eexists. split; [done|].
  split; [|split; [done|]].
  - apply wf_update; [done|]. by apply is_word_andnot.
  - intros j Hj. simpl.
    apply (getbit_update _ i w (fun w => andnot w (mask i))
             (fun x y => x && negb y));
      [lia | done | | apply andb_true_r | done].
    intros m Hm. unfold andnot. by rewrite Z.ldiff_spec, testbit_mask by lia.
Qed.

Lemma Flip_inside_shape s i :
  wf s -> 0 <= i < n s ->
  exists w, index (b s) (widx i) = Some w /\ is_word w
    /\ Flip s i
       = Some (mkBitset (n s) (<[Z.to_nat (widx i) := Z.lxor w (mask i)]> (b s))).
Proof.
  intros Hwf Hi. unfold Flip. destruct (Z.leb_spec (n s) i); [lia|]. simpl.
  destruct (wf_index s i Hwf Hi) as (w & Hw & Hword & Hst).
  exists w. split; [done|]. split; [done|].
  rewrite Hw. simpl. by rewrite Hst.
Qed.

Lemma Flip_inside_bits s i :
  wf s -> 0 <= i < n s ->
  exists s', Flip s i = Some s' /\ wf s' /\ n s' = n s
             /\ forall j, 0 <= j ->
                  getbit (b s') j = xorb (getbit (b s) j) (j =? i).
Proof.
  intros Hwf Hi. destruct (Flip_inside_shape s i Hwf Hi) as (w & Hw & Hword & ->).
  eexists. split; [done|]. split; [|split; [done|]].
  - apply wf_update; [done|]. apply is_word_lxor; [done | apply is_word_mask; lia].
  - intros j Hj. simpl.
    apply (getbit_update _ i w (fun w => Z.lxor w (mask i)) xorb);
      [lia | done | | apply xorb_false_r | done].
    intros m Hm. by rewrite Z.lxor_spec, testbit_mask by lia.
Qed.

(** A flip at or past the length is [Set] followed by a flip inside. *)
Lemma Flip_growth_steps s i s1 :
  n s <= i -> Set_ s i = Some s1 -> i < n s1 ->
  Flip s i = Flip s1 i.
Proof.
  intros Hge HS Hlt. unfold Flip.
  destruct (Z.leb_spec (n s) i); [|lia].
  destruct (Z.leb_spec (n s1) i); [lia|]. by rewrite HS.
Qed.

Lemma Flip_growth_bits s i :
  wf s -> n s <= i < maxLen ->
  exists s', Flip s i = Some s' /\ wf s' /\ n s' = i + 1
             /\ forall j, 0 <= j ->
                  getbit (b s') j = getbit (b s) j && negb (j =? i).
Proof.
  intros Hwf Hi. pose proof (wf_n s Hwf) as Hn.
  destruct (Set_bits s i Hwf) as (s1 & HS & Hwf1 & Hn1 & Hb1); [lia|].
  destruct (Flip_inside_bits s1 i Hwf1) as (s' & HF & Hwf' & Hn' & Hb'); [lia|].
  exists s'. split; [by rewrite (Flip_growth_steps s i s1) by (done || lia)|].
  split; [done|]. split; [lia|].
  intros j Hj. rewrite Hb', Hb1 by done.
  destruct (getbit (b s) j), (j =? i); done.
Qed.

Lemma padb_sound s : padb s = true -> padding_zero s.
Proof.
  unfold padb. rewrite forallb_forall. intros H j Hj.
  destruct (Z.lt_ge_cases j (32 * Z.of_nat (length (b s)))) as [Hlt|Hge].
  - apply negb_true_iff, H, list_elem_of_In, elem_of_seqZ. lia.
  - unfold getbit. rewrite index_None_ge; [done|]. rewrite widx_div.
    Z.div_mod_to_equations. lia.
Qed.

(** X1: [Set] at an index whose successor is a supported length succeeds
    on a well-formed bitset: the length becomes the greater of the old
    length and [i + 1], bit [i] tests true and every other bit below the
    old length tests as before.  When no bit was stored past the old
    length, none is stored past the new one and the bits between the old
    length and [i] test false. *)
Theorem Set_sets_only_bit (s : Bitset) (i : Z) :
  wf s -> 0 <= i < maxLen ->
  exists s',
    Set_ s i = Some s' /\ Len s' = Z.max (Len s) (i + 1)
    /\ Test s' i = Some true
    /\ (forall j, 0 <= j < Len s -> j <> i -> Test s' j = Test s j)
    /\ (padding_zero s ->
        padding_zero s'
        /\ forall j, Len s <= j -> j <> i -> Test s' j = Some false).
Proof.
  intros Hwf Hi. pose proof (wf_n s Hwf) as Hn.
  destruct (Set_bits s i Hwf Hi) as (s' & HS & Hwf' & Hn' & Hb).
  exists s'. unfold Len. split; [done|]. split; [done|]. split; [|split].
  - rewrite Test_getbit, Hb by (done || lia).
    rewrite Z.eqb_refl, orb_true_r.
    by destruct (Z.ltb_spec i (n s')); [|lia].
  - intros j Hj Hne. rewrite !Test_getbit, Hb by (done || lia).
    destruct (Z.eqb_spec j i) as [?|_]; [done|]. rewrite orb_false_r.
    destruct (Z.ltb_spec j (n s')), (Z.ltb_spec j (n s)); done || lia.
  - intros Hpad. split.
    + intros j Hj. rewrite Hb by lia. rewrite Hpad by lia.
      by destruct (Z.eqb_spec j i) as [?|_]; [lia|].
    + intros j Hj Hne. rewrite Test_getbit, Hb by (done || lia).
      rewrite Hpad by lia. destruct (Z.eqb_spec j i) as [?|_]; [done|].
      apply f_equal, andb_false_r.
Qed.

Lemma Set_sets_only_bit_witness :
  wf (New 32) /\ 0 <= 32 < maxLen /\
  exists s', Set_ (New 32) 32 = Some s' /\ Len s' = 33
             /\ Test s' 32 = Some true /\ Test s' 31 = Test (New 32) 31.
Proof.
  assert (wf (New 32)) as Hwf by (apply wfb_wf; reflexivity).
  assert (0 <= 32 < maxLen) as Hi by (unfold maxLen; lia).
  split; [exact Hwf|]. split; [exact Hi|].
  destruct (Set_sets_only_bit (New 32) 32 Hwf Hi) as (s' & HS & Hl & Ht & Hf & _).
  exists s'. split; [exact HS|]. split; [exact Hl|]. split; [exact Ht|].
  apply Hf; simpl; lia.
Defined.

(** X2: [Clear] never fails on a well-formed bitset: it keeps the length,
    leaves bit [i] testing false and every other bit testing as before. *)
Theorem Clear_clears_only_bit (s : Bitset) (i : Z) :
  wf s -> 0 <= i ->
  exists s',
    Clear s i = Some s' /\ Len s' = Len s /\ Test s' i = Some false
    /\ forall j, 0 <= j -> j <> i -> Test s' j = Test s j.
Proof.
  intros Hwf Hi. unfold Len. destruct (Z.lt_ge_cases i (n s)) as [Hlt|Hge].
  - destruct (Clear_bits s i Hwf) as (s' & HC & Hwf' & Hn' & Hb); [lia|].
    exists s'. split; [done|]. split; [done|]. split.
    + rewrite Test_getbit, Hb by done. rewrite Z.eqb_refl. simpl.
      by rewrite andb_false_r, andb_false_r.
    + intros j Hj Hne. rewrite !Test_getbit, Hb, Hn' by done.
      destruct (Z.eqb_spec j i) as [?|_]; [done|]. simpl. by rewrite andb_true_r.
  - exists s. split; [by apply Clear_out_of_range|]. split; [done|]. split; [|done].
    rewrite Test_getbit by done. by destruct (Z.ltb_spec i (n s)); [lia|].
Qed.

Lemma Clear_clears_only_bit_witness :
  wf (mkBitset 40 [7; 129]) /\ 0 <= 1 /\
  exists s', Clear (mkBitset 40 [7; 129]) 1 = Some s'
             /\ Len s' = 40 /\ Test s' 1 = Some false
             /\ Test s' 2 = Test (mkBitset 40 [7; 129]) 2.
Proof.
  assert (wf (mkBitset 40 [7; 129])) as Hwf by (apply wfb_wf; reflexivity).
  split; [exact Hwf|]. split; [lia|].
  destruct (Clear_clears_only_bit (mkBitset 40 [7; 129]) 1 Hwf) as (s' & HC & Hl & Ht & Hf);
    [lia|].
  exists s'. split; [exact HC|]. split; [exact Hl|]. split; [exact Ht|].
  apply Hf; lia.
Defined.

(** X3: [Flip] below the length toggles bit [i], keeps the length and
    every other bit, and a second [Flip] of the same bit gives back the
    bitset it started from. *)
Theorem Flip_inside_involutive (s : Bitset) (i : Z) :
  wf s -> 0 <= i < Len s ->
  exists s' t,
    Flip s i = Some s' /\ Len s' = Len s
    /\ Test s i = Some t /\ Test s' i = Some (negb t)
    /\ (forall j, 0 <= j -> j <> i -> Test s' j = Test s j)
    /\ Flip s' i = Some s.
Proof.
  unfold Len. intros Hwf Hi.
  destruct (Flip_inside_bits s i Hwf Hi) as (s' & HF & Hwf' & Hn' & Hb).
  exists s', (getbit (b s) i). split; [done|]. split; [done|].
  split; [|split; [|split]].
  - rewrite Test_getbit by (done || lia).
    by destruct (Z.ltb_spec i (n s)); [|lia].
  - rewrite Test_getbit, Hb, Hn' by (done || lia). rewrite Z.eqb_refl.
    destruct (Z.ltb_spec i (n s)); [|lia]. simpl. by rewrite xorb_true_r.
  - intros j Hj Hne. rewrite !Test_getbit, Hb, Hn' by done.
    destruct (Z.eqb_spec j i) as [?|_]; [done|]. by rewrite xorb_false_r.
  - destruct (Flip_inside_shape s i Hwf Hi) as (w & Hw & Hword & HF1).
    rewrite HF1 in HF. injection HF as <-.
    apply index_Some_range in Hw as Hr.
    destruct (Flip_inside_shape _ i Hwf') as (w' & Hw' & _ & ->); [simpl; lia|].
    simpl in *. rewrite index_lookup, list_lookup_insert_eq in Hw'
      by (rewrite ?length_insert; lia).
    injection Hw' as <-.
    rewrite list_insert_insert_eq, Z.lxor_assoc, Z.lxor_nilpotent, Z.lxor_0_r.
    rewrite index_lookup in Hw by done. rewrite list_insert_id by done.
    by destruct s.
Qed.

Lemma Flip_inside_involutive_witness :
  wf (mkBitset 40 [7; 129]) /\ 0 <= 3 < Len (mkBitset 40 [7; 129]) /\
  exists s', Flip (mkBitset 40 [7; 129]) 3 = Some s'
             /\ Test s' 3 = Some true
             /\ Flip s' 3 = Some (mkBitset 40 [7; 129]).
Proof.
  assert (wf (mkBitset 40 [7; 129])) as Hwf by (apply wfb_wf; reflexivity).
  assert (0 <= 3 < Len (mkBitset 40 [7; 129])) as Hi by (simpl; lia).
  split; [exact Hwf|]. split; [exact Hi|].
  destruct (Flip_inside_involutive _ 3 Hwf Hi) as (s' & t & HF & _ & Ht & Ht' & _ & Hback).
  exists s'. split; [exact HF|]. split; [|exact Hback].
  rewrite Ht'. vm_compute in Ht. injection Ht as <-. reflexivity.
Defined.

(** X4: [Set] and [Flip] fail on every well-formed bitset for every index
    from [2^32 - 32] on: the word that would hold the bit has index
    [2^27 - 1], one more than any supported length has. *)
Theorem Set_Flip_fail_from_maxLen (s : Bitset) (i : Z) :
  wf s -> maxLen <= i <= MaxUint32 -> Set_ s i = None /\ Flip s i = None.
Proof.
  intros Hwf Hi. pose proof (Set_past_maxLen s i Hwf Hi) as HS.
  split; [done|]. unfold Flip. pose proof (wf_n s Hwf).
  destruct (Z.leb_spec (n s) i); [|lia]. by rewrite HS.
Qed.

Lemma Set_Flip_fail_from_maxLen_witness :
  wf (New 100) /\ maxLen <= 4294967270 <= MaxUint32 /\
  Set_ (New 100) 4294967270 = None /\ Flip (New 100) 4294967270 = None.
Proof.
  assert (wf (New 100)) as Hwf by (apply wfb_wf; reflexivity).
  assert (maxLen <= 4294967270 <= MaxUint32) as Hi
    by (unfold maxLen, MaxUint32; lia).
  split; [exact Hwf|]. split; [exact Hi|].
  exact (Set_Flip_fail_from_maxLen _ _ Hwf Hi).
Defined.

(** ** Empty bitsets *)

Lemma Count_zeros (k : nat) len0 : Count (mkBitset len0 (replicate k 0)) = 0.
Proof.
  unfold Count. simpl. induction k as [|k IH]; [done|]. simpl.
  change (u32 (0 + popCountUint32 0)) with 0. exact IH.
Qed.

Lemma None_zeros (k : nat) len0 : None_ (mkBitset len0 (replicate k 0)) = true.
Proof. unfold None_. simpl. induction k as [|k IH]; [done|]. simpl. exact IH. Qed.

Lemma Test_zeros (k : nat) len0 j :
  wf (mkBitset len0 (replicate k 0)) -> 0 <= j ->
  Test (mkBitset len0 (replicate k 0)) j = Some false.
Proof.
  intros Hwf Hj. rewrite Test_getbit by done. simpl.
  by rewrite getbit_zeros, andb_false_r.
Qed.

(** X5: for a length up to [2^32 - 32], [New] gives a bitset of that
    length with [max(1, ceil(n / 32))] words in which every bit tests
    false: its count is 0, [None] holds and [Any] does not. *)
Theorem New_is_empty (k : Z) :
  0 <= k <= maxLen ->
  Len (New k) = k
  /\ Z.of_nat (length (b (New k))) = Z.max 1 ((k + 31) / 32)
  /\ (forall j, 0 <= j -> Test (New k) j = Some false)
  /\ Count (New k) = 0 /\ None_ (New k) = true /\ Any (New k) = false
  /\ padding_zero (New k).
Proof.
  intros Hk. pose proof (New_wf k Hk) as Hwf.
  destruct (New_spec k Hk) as (Hl & Hw & _).
  split; [done|]. split; [done|]. split; [|split; [|split; [|split]]].
  - intros j Hj. by apply Test_zeros.
  - apply Count_zeros.
  - apply None_zeros.
  - unfold Any, New, make. by rewrite None_zeros.
  - intros j Hj. simpl in *. apply getbit_zeros. lia.
Qed.

Lemma New_is_empty_witness :
  0 <= 100 <= maxLen /\
  Len (New 100) = 100 /\ length (b (New 100)) = 4%nat
  /\ Test (New 100) 99 = Some false /\ Count (New 100) = 0.
Proof.
  assert (0 <= 100 <= maxLen) as Hk by (unfold maxLen; lia).
  split; [exact Hk|].
  destruct (New_is_empty 100 Hk) as (Hl & _ & Ht & Hc & _).
  split; [exact Hl|]. split; [reflexivity|]. split; [apply Ht; lia | exact Hc].
Defined.

(** X6: [ClearAll] keeps the length and the number of words of a
    well-formed bitset and leaves every bit testing false, with count 0. *)
Theorem ClearAll_empties (s : Bitset) :
  wf s ->
  Len (ClearAll s) = Len s
  /\ length (b (ClearAll s)) = length (b s)
  /\ (forall j, 0 <= j -> Test (ClearAll s) j = Some false)
  /\ Count (ClearAll s) = 0 /\ None_ (ClearAll s) = true
  /\ padding_zero (ClearAll s).
Proof.
  intros Hwf. pose proof (ClearAll_wf s Hwf) as Hwf'. unfold ClearAll in *.
  split; [done|]. split; [apply length_replicate|].
  split; [|split; [|split]].
  - intros j Hj. by apply Test_zeros.
  - apply Count_zeros.
  - apply None_zeros.
  - intros j Hj. simpl in *. apply getbit_zeros. pose proof (wf_n s Hwf). lia.
Qed.

Lemma ClearAll_empties_witness :
  wf (mkBitset 40 [7; 129]) /\
  Len (ClearAll (mkBitset 40 [7; 129])) = 40
  /\ Test (ClearAll (mkBitset 40 [7; 129])) 0 = Some false
  /\ Count (ClearAll (mkBitset 40 [7; 129])) = 0.
Proof.
  assert (wf (mkBitset 40 [7; 129])) as Hwf by (apply wfb_wf; reflexivity).
  split; [exact Hwf|].
  destruct (ClearAll_empties _ Hwf) as (Hl & _ & Ht & Hc & _).
  split; [exact Hl|]. split; [apply Ht; lia | exact Hc].
Defined.

(** ** Copies *)

(** X7: [Clone] of a well-formed bitset has the same length and the same
    words, and [Equal] finds it equal to the original. *)
Theorem Clone_equal (s : Bitset) :
  wf s -> Clone s = s /\ Equal (Clone s) s = Some true.
Proof. intros Hwf. rewrite Clone_wf by done. split; [done | apply Equal_refl]. Qed.

Lemma Clone_equal_witness :
  wf (mkBitset 40 [7; 129]) /\
  Clone (mkBitset 40 [7; 129]) = mkBitset 40 [7; 129]
  /\ Equal (Clone (mkBitset 40 [7; 129])) (mkBitset 40 [7; 129]) = Some true.
Proof.
  assert (wf (mkBitset 40 [7; 129])) as Hwf by (apply wfb_wf; reflexivity).
  split; [exact Hwf|]. exact (Clone_equal _ Hwf).
Defined.

(** X8: [Copy] returns the smaller of the two lengths and changes only
    words of the destination: its length and number of words stay, the
    words at positions both sequences have become those of the source and
    the words past the source's stay.  Between well-formed bitsets of equal
    length the destination becomes the source. *)
Theorem Copy_overlays (s c : Bitset) :
  snd (Copy s c) = Z.min (Len s) (Len c)
  /\ Len (fst (Copy s c)) = Len c
  /\ length (b (fst (Copy s c))) = length (b c)
  /\ (forall w, (w < length (b s))%nat -> (w < length (b c))%nat ->
                b (fst (Copy s c)) !! w = b s !! w)
  /\ (forall w, (length (b s) <= w)%nat -> b (fst (Copy s c)) !! w = b c !! w)
  /\ (wf s -> wf c -> Len s = Len c -> fst (Copy s c) = s).
Proof.
  unfold Copy, Len, copy. simpl. split; [|split; [done|split; [|split; [|split]]]].
  - destruct (Z.ltb_spec (n s) (n c)); lia.
  - rewrite length_app, length_take, length_drop. lia.
  - intros w Hs Hc. rewrite lookup_app_l by (rewrite length_take; lia).
    apply lookup_take_lt. lia.
  - intros w Hw.
    destruct (Nat.lt_ge_cases w (length (b c))) as [Hlt|Hge].
    + rewrite lookup_app_r by (rewrite length_take; lia).
      rewrite length_take, lookup_drop. f_equal. lia.
    + rewrite !lookup_ge_None_2; [done | lia |].
      rewrite length_app, length_take, length_drop. lia.
  - intros Hs Hc Heq. fold (copy (b c) (b s)).
    rewrite copy_same_length by (symmetry; by apply wf_eq_length).
    rewrite <- Heq. by destruct s.
Qed.

(** ** Comparison *)

Lemma Equal_loop_decides (ws : list Z) :
  forall pre cw,
    length cw = length ws ->
    exists r, Equal_loop ws (Z.of_nat (length pre)) (pre ++ cw) = Some r
              /\ (r = true <-> ws = cw).
Proof.
  induction ws as [|v ws IH]; intros pre cw Hlen.
  - destruct cw; [|done]. exists true. done.
  - destruct cw as [|x cw]; [done|]. simpl.
    rewrite index_nat by (rewrite length_app; simpl; lia).
    rewrite list_lookup_middle by done. simpl.
    destruct (Z.eqb_spec x v) as [->|Hne]; simpl.
    + replace (Z.of_nat (length pre) + 1) with (Z.of_nat (length (pre ++ [v])))
        by (rewrite length_app; simpl; lia).
      replace (pre ++ v :: cw) with ((pre ++ [v]) ++ cw) by (by rewrite <- app_assoc).
      destruct (IH (pre ++ [v]) cw) as (r & -> & Hr); [by inversion Hlen|].
      exists r. split; [done|]. rewrite Hr. split; congruence.
    + exists false. split; [done|]. split; [done | congruence].
Qed.

(** X9: on well-formed bitsets [Equal] never fails and returns true
    exactly when the two have the same length and the same words; bitsets
    of different lengths are never equal. *)
Theorem Equal_decides (s c : Bitset) :
  wf s -> wf c ->
  exists r, Equal s c = Some r /\ (r = true <-> s = c)
            /\ (Len s <> Len c -> r = false).
Proof.
  intros Hs Hc. unfold Equal, Len.
  destruct (Z.eqb_spec (n s) (n c)) as [Heq|Hne]; simpl.
  - destruct (Equal_loop_decides (b s) [] (b c)) as (r & Hr & Hiff).
    { symmetry. by apply wf_eq_length. }
    exists r. split; [exact Hr|]. split; [|done].
    rewrite Hiff. destruct s, c; simpl in *. split; congruence.
  - exists false. split; [done|]. split; [|done].
    split; [done | by intros ->].
Qed.

Lemma Equal_decides_witness :
  wf (New 99) /\ wf (New 100) /\
  Equal (New 99) (New 100) = Some false /\ Equal (New 100) (New 100) = Some true.
Proof.
  assert (wf (New 99)) as Ha by (apply wfb_wf; reflexivity).
  assert (wf (New 100)) as Hc by (apply wfb_wf; reflexivity).
  split; [exact Ha|]. split; [exact Hc|]. split.
  - destruct (Equal_decides _ _ Ha Hc) as (r & -> & _ & Hne).
    rewrite Hne; [reflexivity | simpl; lia].
  - destruct (Equal_decides _ _ Hc Hc) as (r & -> & Hiff & _).
    f_equal. by apply Hiff.
Defined.

(** ** The bits of the set-algebra results *)

Lemma nth_zip_tail (op : Z -> Z -> Z) (l : list Z) :
  (forall y, op 0 y = y) ->
  forall k w, (length l <= length k)%nat ->
    nth w (zip_with op l k ++ drop (length l) k) 0 = op (nth w l 0) (nth w k 0).
Proof.
  intros Hop. induction l as [|x l IH]; intros k w Hlen.
  - simpl. destruct w; by rewrite Hop.
  - destruct k as [|y k]; [simpl in Hlen; lia|]. simpl in *.
    destruct w as [|w]; [done|]. apply IH. lia.
Qed.

Lemma nth_zip_land (l : list Z) :
  forall k w, nth w (zip_with Z.land l k) 0 = Z.land (nth w l 0) (nth w k 0).
Proof.
  induction l as [|x l IH]; intros k w.
  - simpl. by destruct w.
  - destruct k as [|y k]; simpl.
    + destruct w; by rewrite Z.land_0_r.
    + destruct w as [|w]; [done | apply IH].
Qed.

Lemma nth_zip_andnot (l : list Z) :
  forall k w,
    nth w (zip_with andnot l k ++ drop (length k) l) 0
    = andnot (nth w l 0) (nth w k 0).
Proof.
  unfold andnot. induction l as [|x l IH]; intros k w.
  - simpl. rewrite drop_nil. simpl. by destruct w.
  - destruct k as [|y k]; simpl.
    + destruct w; by rewrite Z.ldiff_0_r.
    + destruct w as [|w]; [done | apply IH].
Qed.

Lemma Difference_bits a c :
  wf a -> wf c ->
  exists r, Difference a c = Some r /\ wf r /\ n r = n a
            /\ forall j, 0 <= j ->
                 getbit (b r) j = getbit (b a) j && negb (getbit (b c) j).
Proof.
  intros Ha Hc. destruct (Difference a c) as [r|] eqn:Hr;
    [|by rewrite Difference_spec in Hr].
  exists r. split; [done|]. split; [by apply (Difference_wf a c)|].
  rewrite Difference_spec in Hr by done. injection Hr as <-.
  split; [done|]. intros j Hj. simpl.
  rewrite !getbit_nth, nth_zip_andnot by done. unfold andnot.
  apply Z.ldiff_spec.
Qed.

Lemma Intersection_bits a c :
  wf a -> wf c ->
  exists r, Intersection a c = Some r /\ wf r /\ n r = Z.min (n a) (n c)
            /\ forall j, 0 <= j ->
                 getbit (b r) j = getbit (b a) j && getbit (b c) j.
Proof.
  intros Ha Hc. destruct (Intersection a c) as [r|] eqn:Hr;
    [|by rewrite Intersection_spec in Hr].
  exists r. split; [done|]. split; [by apply (Intersection_wf a c)|].
  rewrite Intersection_spec in Hr by done. injection Hr as <-.
  unfold sortByLength. destruct (Z.leb_spec (n a) (n c)); simpl.
  - split; [lia|]. intros j Hj.
    rewrite !getbit_nth, nth_zip_land by done. apply Z.land_spec.
  - split; [lia|]. intros j Hj.
    rewrite !getbit_nth, nth_zip_land by done.
    rewrite Z.land_spec. apply andb_comm.
Qed.

(** [Union] and [SymmetricDifference]: a word-wise operation [op] with
    [op 0 y = y], acting on the bits as the symmetric [bop]. *)
Lemma sorted_result_bits (op : Z -> Z -> Z) (bop : bool -> bool -> bool) a c :
  (forall y, op 0 y = y) ->
  (forall x y m, Z.testbit (op x y) m = bop (Z.testbit x m) (Z.testbit y m)) ->
  (forall x y, bop x y = bop y x) ->
  wf a -> wf c ->
  let r := (let '(s, ob) := sortByLength a c in
            mkBitset (n ob)
              (zip_with op (b s) (b ob) ++ drop (length (b s)) (b ob))) in
  n r = Z.max (n a) (n c)
  /\ forall j, 0 <= j -> getbit (b r) j = bop (getbit (b a) j) (getbit (b c) j).
Proof.
  intros Hop Hbits Hcomm Ha Hc. unfold sortByLength.
  destruct (Z.leb_spec (n a) (n c)); simpl.
  - split; [lia|]. intros j Hj.
    rewrite !getbit_nth, nth_zip_tail by (done || apply wf_mono_length; done || lia).
    apply Hbits.
  - split; [lia|]. intros j Hj.
    rewrite !getbit_nth, nth_zip_tail by (done || apply wf_mono_length; done || lia).
    rewrite Hbits. apply Hcomm.
Qed.

Lemma Union_bits a c :
  wf a -> wf c ->
  exists r, Union a c = Some r /\ wf r /\ n r = Z.max (n a) (n c)
            /\ forall j, 0 <= j ->
                 getbit (b r) j = getbit (b a) j || getbit (b c) j.
Proof.
  intros Ha Hc. destruct (Union a c) as [r|] eqn:Hr;
    [|by rewrite Union_spec in Hr].
  exists r. split; [done|]. split; [by apply (Union_wf a c)|].
  rewrite Union_spec in Hr by done. injection Hr as <-.
  apply (sorted_result_bits Z.lor orb); auto using Z.lor_0_l, Z.lor_spec, orb_comm.
Qed.

Lemma SymmetricDifference_bits a c :
  wf a -> wf c ->
  exists r, SymmetricDifference a c = Some r /\ wf r
            /\ n r = Z.max (n a) (n c)
            /\ forall j, 0 <= j ->
                 getbit (b r) j = xorb (getbit (b a) j) (getbit (b c) j).
Proof.
  intros Ha Hc. destruct (SymmetricDifference a c) as [r|] eqn:Hr;
    [|by rewrite SymmetricDifference_spec in Hr].
  exists r. split; [done|]. split; [by apply (SymmetricDifference_wf a c)|].
  rewrite SymmetricDifference_spec in Hr by done. injection Hr as <-.
  apply (sorted_result_bits Z.lxor xorb);
    auto using Z.lxor_0_l, Z.lxor_spec, xorb_comm.
Qed.

Lemma testbit_not32 x m :
  0 <= m < 32 -> Z.testbit (not32 x) m = negb (Z.testbit x m).
Proof.
  intros Hm. unfold not32, allBits. change 0xffffffff with (Z.ones 32).
  rewrite Z.lxor_spec, Z.testbit_ones_nonneg by lia.
  destruct (Z.ltb_spec m 32); [apply xorb_true_r | lia].
Qed.

Lemma Complement_bits a :
  wf a ->
  exists r, Complement a = Some r /\ wf r /\ n r = n a
            /\ forall j, 0 <= j < n a ->
                 getbit (b r) j = negb (getbit (b a) j).
Proof.
  intros Hwf. destruct (Complement_wf a Hwf) as (r & Hr & Hwfr & Hnr).
  exists r. split; [done|]. split; [done|]. split; [done|].
  intros j Hj. pose proof Hwf as [Hn Hl Hw]. unfold maxLen in Hn.
  rewrite wordsNeeded_ceil in Hl by (unfold maxLen; lia).
  assert (0 <= j mod 32 < 32) as Hm by (apply Z.mod_pos_bound; lia).
  assert (0 <= j / 32) as Hq by (Z.div_mod_to_equations; lia).
  assert (0 <= n a mod 32 < 32) as Hrm by (apply Z.mod_pos_bound; lia).
  rewrite !getbit_nth, !nth_lookup by lia.
  destruct (Z.eq_dec (n a mod 32) 0) as [Hr0|Hr0].
  - rewrite Complement_even in Hr by done. injection Hr as <-. simpl.
    change (map not32 (b a)) with (not32 <$> b a). rewrite list_lookup_fmap.
    destruct (lookup_lt_is_Some_2 (b a) (Z.to_nat (j / 32))) as [w ->].
    { Z.div_mod_to_equations. lia. }
    simpl. by apply testbit_not32.
  - destruct (wf_last a Hwf) as (init & wl & Hb).
    rewrite (Complement_odd a init wl) in Hr by done. injection Hr as <-.
    simpl. rewrite Hb in *. rewrite length_app in Hl. simpl in Hl.
    destruct (Z.lt_ge_cases (j / 32) (Z.of_nat (length init))) as [Hlt|Hge].
    + rewrite !lookup_app_l by (rewrite ?length_map; lia).
      change (map not32 init) with (not32 <$> init). rewrite list_lookup_fmap.
      destruct (lookup_lt_is_Some_2 init (Z.to_nat (j / 32))) as [w ->]; [lia|].
      simpl. by apply testbit_not32.
    + assert (Z.to_nat (j / 32) = length init) as Heq
        by (Z.div_mod_to_equations; lia).
      rewrite Heq. rewrite <- (length_map not32 init) at 1.
      rewrite !list_lookup_middle by done. simpl.
      rewrite Z.land_spec, testbit_not32, Z.testbit_ones_nonneg by lia.
      destruct (Z.ltb_spec (j mod 32) (n a mod 32)); [apply andb_true_r|].
      Z.div_mod_to_equations. lia.
Qed.

(** ** What the set-algebra results test *)

(** X10: [Intersection] of two well-formed bitsets has the smaller length,
    and each of its bits tests true exactly when the bit tests true in both
    operands. *)
Theorem Intersection_tests (a c : Bitset) :
  wf a -> wf c ->
  exists r,
    Intersection a c = Some r /\ Len r = Z.min (Len a) (Len c)
    /\ forall j, 0 <= j ->
         exists ta tc, Test a j = Some ta /\ Test c j = Some tc
                       /\ Test r j = Some (ta && tc).
Proof.
  intros Ha Hc. destruct (Intersection_bits a c Ha Hc) as (r & Hr & Hwf & Hn & Hb).
  exists r. unfold Len. split; [done|]. split; [done|]. intros j Hj.
  eexists _, _. split; [by apply Test_getbit|]. split; [by apply Test_getbit|].
  rewrite Test_getbit, Hb, Hn by done. f_equal.
  destruct (Z.ltb_spec j (Z.min (n a) (n c))), (Z.ltb_spec j (n a)),
    (Z.ltb_spec j (n c)); try lia;
    destruct (getbit (b a) j), (getbit (b c) j); done.
Qed.

Lemma Intersection_tests_witness :
  wf (mkBitset 40 [7; 129]) /\ wf (mkBitset 3 [5]) /\
  exists r, Intersection (mkBitset 40 [7; 129]) (mkBitset 3 [5]) = Some r
            /\ Len r = 3 /\ Test r 2 = Some true /\ Test r 1 = Some false.
Proof.
  assert (wf (mkBitset 40 [7; 129])) as Ha by (apply wfb_wf; reflexivity).
  assert (wf (mkBitset 3 [5])) as Hc by (apply wfb_wf; reflexivity).
  split; [exact Ha|]. split; [exact Hc|].
  destruct (Intersection_tests _ _ Ha Hc) as (r & Hr & Hl & Ht).
  exists r. split; [exact Hr|]. split; [exact Hl|]. split.
  - destruct (Ht 2) as (ta & tc & H1 & H2 & ->); [lia|].
    vm_compute in H1, H2. by injection H1 as <-; injection H2 as <-.
  - destruct (Ht 1) as (ta & tc & H1 & H2 & ->); [lia|].
    vm_compute in H1, H2. by injection H1 as <-; injection H2 as <-.
Defined.

(** X11: [Union] of two well-formed bitsets with no bit stored past their
    lengths has the greater length, and each of its bits tests true
    exactly when the bit tests true in one of the operands. *)
Theorem Union_tests (a c : Bitset) :
  wf a -> wf c -> padding_zero a -> padding_zero c ->
  exists r,
    Union a c = Some r /\ Len r = Z.max (Len a) (Len c)
    /\ forall j, 0 <= j ->
         exists ta tc, Test a j = Some ta /\ Test c j = Some tc
                       /\ Test r j = Some (ta || tc).
Proof.
  intros Ha Hc Hpa Hpc. destruct (Union_bits a c Ha Hc) as (r & Hr & Hwf & Hn & Hb).
  exists r. unfold Len. split; [done|]. split; [done|]. intros j Hj.
  eexists _, _. split; [by apply Test_padding_zero|].
  split; [by apply Test_padding_zero|].
  rewrite Test_getbit, Hb, Hn by done. f_equal.
  destruct (Z.ltb_spec j (Z.max (n a) (n c))); [done|].
  by rewrite Hpa, Hpc by lia.
Qed.

Lemma Union_tests_witness :
  wf (mkBitset 40 [6; 129]) /\ wf (mkBitset 3 [5]) /\
  padding_zero (mkBitset 40 [6; 129]) /\ padding_zero (mkBitset 3 [5]) /\
  exists r, Union (mkBitset 40 [6; 129]) (mkBitset 3 [5]) = Some r
            /\ Len r = 40 /\ Test r 0 = Some true /\ Test r 3 = Some false.
Proof.
  assert (wf (mkBitset 40 [6; 129])) as Ha by (apply wfb_wf; reflexivity).
  assert (wf (mkBitset 3 [5])) as Hc by (apply wfb_wf; reflexivity).
  assert (padding_zero (mkBitset 40 [6; 129])) as Hpa by (apply padb_sound; reflexivity).
  assert (padding_zero (mkBitset 3 [5])) as Hpc by (apply padb_sound; reflexivity).
  split; [exact Ha|]. split; [exact Hc|]. split; [exact Hpa|]. split; [exact Hpc|].
  destruct (Union_tests _ _ Ha Hc Hpa Hpc) as (r & Hr & Hl & Ht).
  exists r. split; [exact Hr|]. split; [exact Hl|]. split.
  - destruct (Ht 0) as (ta & tc & H1 & H2 & ->); [lia|].
    vm_compute in H1, H2. by injection H1 as <-; injection H2 as <-.
  - destruct (Ht 3) as (ta & tc & H1 & H2 & ->); [lia|].
    vm_compute in H1, H2. by injection H1 as <-; injection H2 as <-.
Defined.

(** X12: [Difference] of two well-formed bitsets succeeds and keeps the
    length of the receiver, and each bit of the result tests true exactly
    when it tests true in the receiver and is not stored in the argument;
    when the argument has no bit stored past its length, that is: exactly
    when the bit tests true in the receiver and false in the argument. *)
Theorem Difference_tests (a c : Bitset) :
  wf a -> wf c ->
  exists r,
    Difference a c = Some r /\ Len r = Len a
    /\ (forall j, 0 <= j ->
          exists ta, Test a j = Some ta
                     /\ Test r j = Some (ta && negb (getbit (b c) j)))
    /\ (padding_zero c ->
        forall j, 0 <= j ->
          exists ta tc, Test a j = Some ta /\ Test c j = Some tc
                        /\ Test r j = Some (ta && negb tc)).
Proof.
  intros Ha Hc. destruct (Difference_bits a c Ha Hc) as (r & Hr & Hwf & Hn & Hb).
  exists r. unfold Len. split; [done|]. split; [done|]. split.
  - intros j Hj. eexists. split; [by apply Test_getbit|].
    rewrite Test_getbit, Hb, Hn by done. f_equal. apply andb_assoc.
  - intros Hpc j Hj. eexists _, _. split; [by apply Test_getbit|].
    split; [by apply Test_padding_zero|].
    rewrite Test_getbit, Hb, Hn by done. f_equal. apply andb_assoc.
Qed.

Lemma Difference_tests_witness :
  wf (mkBitset 40 [7; 129]) /\ wf (mkBitset 3 [5]) /\
  padding_zero (mkBitset 3 [5]) /\
  exists r, Difference (mkBitset 40 [7; 129]) (mkBitset 3 [5]) = Some r
            /\ Len r = 40 /\ Test r 1 = Some true /\ Test r 2 = Some false.
Proof.
  assert (wf (mkBitset 40 [7; 129])) as Ha by (apply wfb_wf; reflexivity).
  assert (wf (mkBitset 3 [5])) as Hc by (apply wfb_wf; reflexivity).
  assert (padding_zero (mkBitset 3 [5])) as Hpc by (apply padb_sound; reflexivity).
  split; [exact Ha|]. split; [exact Hc|]. split; [exact Hpc|].
  destruct (Difference_tests _ _ Ha Hc) as (r & Hr & Hl & _ & Ht).
  specialize (Ht Hpc).
  exists r. split; [exact Hr|]. split; [exact Hl|]. split.
  - destruct (Ht 1) as (ta & tc & H1 & H2 & ->); [lia|].
    vm_compute in H1, H2. by injection H1 as <-; injection H2 as <-.
  - destruct (Ht 2) as (ta & tc & H1 & H2 & ->); [lia|].
    vm_compute in H1, H2. by injection H1 as <-; injection H2 as <-.
Defined.

(** X13: [SymmetricDifference] of two well-formed bitsets with no bit
    stored past their lengths has the greater length, and each of its bits
    tests true exactly when the bit tests true in one operand only. *)
Theorem SymmetricDifference_tests (a c : Bitset) :
  wf a -> wf c -> padding_zero a -> padding_zero c ->
  exists r,
    SymmetricDifference a c = Some r /\ Len r = Z.max (Len a) (Len c)
    /\ forall j, 0 <= j ->
         exists ta tc, Test a j = Some ta /\ Test c j = Some tc
                       /\ Test r j = Some (xorb ta tc).
Proof.
  intros Ha Hc Hpa Hpc.
  destruct (SymmetricDifference_bits a c Ha Hc) as (r & Hr & Hwf & Hn & Hb).
  exists r. unfold Len. split; [done|]. split; [done|]. intros j Hj.
  eexists _, _. split; [by apply Test_padding_zero|].
  split; [by apply Test_padding_zero|].
  rewrite Test_getbit, Hb, Hn by done. f_equal.
  destruct (Z.ltb_spec j (Z.max (n a) (n c))); [done|].
  by rewrite Hpa, Hpc by lia.
Qed.

Lemma SymmetricDifference_tests_witness :
  wf (mkBitset 40 [6; 129]) /\ wf (mkBitset 3 [5]) /\
  padding_zero (mkBitset 40 [6; 129]) /\ padding_zero (mkBitset 3 [5]) /\
  exists r, SymmetricDifference (mkBitset 40 [6; 129]) (mkBitset 3 [5]) = Some r
            /\ Len r = 40 /\ Test r 0 = Some true /\ Test r 2 = Some false.
Proof.
  assert (wf (mkBitset 40 [6; 129])) as Ha by (apply wfb_wf; reflexivity).
  assert (wf (mkBitset 3 [5])) as Hc by (apply wfb_wf; reflexivity).
  assert (padding_zero (mkBitset 40 [6; 129])) as Hpa by (apply padb_sound; reflexivity).
  assert (padding_zero (mkBitset 3 [5])) as Hpc by (apply padb_sound; reflexivity).
  split; [exact Ha|]. split; [exact Hc|]. split; [exact Hpa|]. split; [exact Hpc|].
  destruct (SymmetricDifference_tests _ _ Ha Hc Hpa Hpc) as (r & Hr & Hl & Ht).
  exists r. split; [exact Hr|]. split; [exact Hl|]. split.
  - destruct (Ht 0) as (ta & tc & H1 & H2 & ->); [lia|].
    vm_compute in H1, H2. by injection H1 as <-; injection H2 as <-.
  - destruct (Ht 2) as (ta & tc & H1 & H2 & ->); [lia|].
    vm_compute in H1, H2. by injection H1 as <-; injection H2 as <-.
Defined.

(** X14: [Complement] of a well-formed bitset keeps the length and
    inverts every bit below it; this needs no assumption on the bits stored
    past the length. *)
Theorem Complement_tests (a : Bitset) :
  wf a ->
  exists r,
    Complement a = Some r /\ Len r = Len a
    /\ forall j, 0 <= j < Len a ->
         exists t, Test a j = Some t /\ Test r j = Some (negb t).
Proof.
  intros Ha. destruct (Complement_bits a Ha) as (r & Hr & Hwf & Hn & Hb).
  exists r. unfold Len. split; [done|]. split; [done|]. intros j Hj.
  exists (getbit (b a) j). rewrite !Test_getbit, Hb, Hn by (done || lia).
  by destruct (Z.ltb_spec j (n a)); [|lia].
Qed.

Lemma Complement_tests_witness :
  wf (mkBitset 40 [7; 129]) /\
  exists r, Complement (mkBitset 40 [7; 129]) = Some r
            /\ Len r = 40 /\ Test r 0 = Some false /\ Test r 3 = Some true.
Proof.
  assert (wf (mkBitset 40 [7; 129])) as Ha by (apply wfb_wf; reflexivity).
  split; [exact Ha|].
  destruct (Complement_tests _ Ha) as (r & Hr & Hl & Ht).
  exists r. split; [exact Hr|]. split; [exact Hl|]. split.
  - destruct (Ht 0) as (t & H1 & ->); [simpl; lia|].
    vm_compute in H1. by injection H1 as <-.
  - destruct (Ht 3) as (t & H1 & ->); [simpl; lia|].
    vm_compute in H1. by injection H1 as <-.
Defined.

(** ** Invariants along the operations *)

(** X15: every bitset obtained from [New] by the operations of the package,
    [Copy] included, with lengths and indices up to [2^32 - 32], is sized as
    the data model says: [max(1, ceil(length / 32))] words, all of them
    [uint32] values. *)
Theorem reachable_sized (s : Bitset) :
  reachable s ->
  0 <= Len s <= maxLen
  /\ Z.of_nat (length (b s)) = Z.max 1 ((Len s + 31) / 32)
  /\ Z.of_nat (length (b s)) = wordCount s
  /\ Forall is_word (b s).
Proof.
  intros Hr. apply reachable_wf in Hr as Hwf.
  pose proof (proj1 (wf_iff_data_model s) Hwf) as (_ & Hl & Hceil & Hw).
  split; [apply (wf_n s Hwf)|]. done.
Qed.

Lemma reachable_sized_witness :
  reachable (fst (Copy (New 64) (New 33))) /\
  0 <= Len (fst (Copy (New 64) (New 33))) <= maxLen
  /\ length (b (fst (Copy (New 64) (New 33)))) = 2%nat.
Proof.
  assert (reachable (fst (Copy (New 64) (New 33)))) as Hr.
  { apply reach_Copy; apply reach_New; unfold maxLen; lia. }
  split; [exact Hr|].
  destruct (reachable_sized _ Hr) as (Hn & _). split; [exact Hn | reflexivity].
Defined.

(** X16: no bit is ever stored past the length of a bitset obtained from
    [New] by [Set], [Clear], [Flip], [ClearAll], [Clone], the four binary
    operations and [Complement] of a non-empty bitset, with lengths and
    indices up to [2^32 - 32]; on such a bitset [Test] reads the stored bit
    at every position. *)
Theorem built_padding_zero (s : Bitset) :
  built s ->
  wf s /\ padding_zero s
  /\ forall j, 0 <= j -> Test s j = Some (getbit (b s) j).
Proof.
  intros Hb.
  assert (wf s /\ padding_zero s) as [Hwf Hpad];
    [|split; [done|]; split; [done|]; intros j Hj; by apply Test_padding_zero].
  induction Hb as
    [ k Hk | s i s' _ [IHw IHp] Hi HS | s i s' _ [IHw IHp] Hi HC
    | s i s' _ [IHw IHp] Hi HF | s _ [IHw IHp] | s _ [IHw IHp]
    | s t r _ [IHs IHsp] _ [IHt IHtp] Hr | s t r _ [IHs IHsp] _ [IHt IHtp] Hr
    | s t r _ [IHs IHsp] _ [IHt IHtp] Hr | s t r _ [IHs IHsp] _ [IHt IHtp] Hr
    | s r _ [IHw IHp] Hpos Hr ].
  - split; [by apply New_wf|]. intros j Hj. simpl in *.
    apply getbit_zeros. lia.
  - destruct (Set_bits s i IHw Hi) as (s1 & HS1 & Hwf1 & Hn1 & Hb1).
    assert (s' = s1) as -> by congruence. split; [done|].
    intros j Hj. pose proof (wf_n s IHw). rewrite Hb1, IHp by lia.
    by destruct (Z.eqb_spec j i) as [?|_]; [lia|].
  - destruct (Z.lt_ge_cases i (n s)) as [Hlt|Hge].
    + destruct (Clear_bits s i IHw) as (s1 & HC1 & Hwf1 & Hn1 & Hb1); [lia|].
      assert (s' = s1) as -> by congruence. split; [done|].
      intros j Hj. pose proof (wf_n s IHw). by rewrite Hb1, IHp by lia.
    + rewrite Clear_out_of_range in HC by done. by injection HC as <-.
  - destruct (Z.lt_ge_cases i (n s)) as [Hlt|Hge].
    + destruct (Flip_inside_bits s i IHw) as (s1 & HF1 & Hwf1 & Hn1 & Hb1); [lia|].
      assert (s' = s1) as -> by congruence. split; [done|].
      intros j Hj. rewrite Hb1, IHp by lia.
      by destruct (Z.eqb_spec j i) as [?|_]; [lia|].
    + destruct (Flip_growth_bits s i IHw) as (s1 & HF1 & Hwf1 & Hn1 & Hb1); [lia|].
      assert (s' = s1) as -> by congruence. split; [done|].
      intros j Hj. by rewrite Hb1, IHp by lia.
  - split; [by apply ClearAll_wf|]. intros j Hj. simpl in *.
    apply getbit_zeros. pose proof (wf_n s IHw). lia.
  - by rewrite Clone_wf.
  - destruct (Difference_bits s t IHs IHt) as (r1 & Hr1 & Hwf1 & Hn1 & Hb1).
    assert (r = r1) as -> by congruence. split; [done|].
    intros j Hj. pose proof (wf_n s IHs). by rewrite Hb1, IHsp by lia.
  - destruct (Intersection_bits s t IHs IHt) as (r1 & Hr1 & Hwf1 & Hn1 & Hb1).
    assert (r = r1) as -> by congruence. split; [done|].
    intros j Hj. pose proof (wf_n s IHs). pose proof (wf_n t IHt).
    rewrite Hb1 by lia.
    destruct (Z.le_gt_cases (n s) j).
    + by rewrite IHsp.
    + rewrite IHtp by lia. apply andb_false_r.
  - destruct (Union_bits s t IHs IHt) as (r1 & Hr1 & Hwf1 & Hn1 & Hb1).
    assert (r = r1) as -> by congruence. split; [done|].
    intros j Hj. pose proof (wf_n s IHs). by rewrite Hb1, IHsp, IHtp by lia.
  - destruct (SymmetricDifference_bits s t IHs IHt) as (r1 & Hr1 & Hwf1 & Hn1 & Hb1).
    assert (r = r1) as -> by congruence. split; [done|].
    intros j Hj. pose proof (wf_n s IHs). by rewrite Hb1, IHsp, IHtp by lia.
  - destruct (Complement_wf s IHw) as (c & Hc & Hwfc & _).
    destruct (Complement_padding s IHw Hpos) as (c' & Hc' & _ & Hpc).
    assert (r = c) as -> by congruence. assert (c = c') as -> by congruence.
    done.
Qed.

Lemma built_padding_zero_witness :
  (exists s, Set_ (New 32) 40 = Some s /\ built s)
  /\ exists s, Set_ (New 32) 40 = Some s /\ wf s /\ padding_zero s
               /\ Test s 40 = Some (getbit (b s) 40).
Proof.
  assert (built (New 32)) as H0 by (apply built_New; unfold maxLen; lia).
  destruct (Set_ (New 32) 40) as [s|] eqn:HS; [|discriminate].
  assert (built s) as Hb.
  { apply (built_Set (New 32) 40 s H0); [unfold maxLen; lia | exact HS]. }
  split; [exists s; split; [reflexivity | exact Hb]|].
  destruct (built_padding_zero s Hb) as (Hwf & Hpad & Ht).
  exists s. split; [reflexivity|]. split; [exact Hwf|]. split; [exact Hpad|].
  apply Ht. lia.
Defined.

(** ** [cleanLastWord] *)

(** X17: [cleanLastWord] never fails on a well-formed bitset: it keeps the
    length and every bit below it, leaves no bit stored past a non-zero
    length, and applying it again changes nothing. *)
Theorem cleanLastWord_masks (s : Bitset) :
  wf s ->
  exists s',
    cleanLastWord s = Some s' /\ wf s' /\ Len s' = Len s
    /\ (forall j, 0 <= j < Len s -> Test s' j = Test s j)
    /\ (0 < Len s -> padding_zero s')
    /\ cleanLastWord s' = Some s'.
Proof.
  intros Hwf. pose proof Hwf as [Hn Hl Hw]. unfold Len.
  destruct (Z.eq_dec (n s mod 32) 0) as [Hr|Hr].
  - assert (cleanLastWord s = Some s) as Hc
      by (unfold cleanLastWord, isEven, lWord; by rewrite Hr).
    exists s. split; [done|]. split; [done|]. split; [done|]. split; [done|].
    split; [|done]. intros Hpos j Hj. unfold getbit.
    rewrite index_None_ge; [done|]. rewrite Hl, wordsNeeded_ceil, widx_div by lia.
    unfold maxLen in Hn. Z.div_mod_to_equations. lia.
  - destruct (wf_last s Hwf) as (init & wl & Hb).
    destruct s as [k ws]. simpl in *. subst ws.
    assert (0 < k) as Hpos by (destruct (Z.eq_dec k 0) as [->|]; [done | lia]).
    rewrite length_app in Hl. simpl in Hl.
    pose proof (Z.mod_pos_bound k 32 ltac:(lia)) as Hrm.
    apply Forall_app in Hw as [Hinit Hwl]. inversion Hwl as [|? ? Hword _]; subst.
    assert (wf (mkBitset k (init ++ [Z.land wl (Z.ones (k mod 32))]))) as Hwf'.
    { split; simpl; [done | rewrite length_app; simpl; lia |].
      apply Forall_app. split; [done|].
      constructor; [by apply is_word_land | constructor]. }
    rewrite cleanLastWord_odd by (done || lia).
    eexists. split; [done|]. split; [done|]. split; [done|].
    rewrite wordsNeeded_ceil in Hl by lia. unfold maxLen in Hn.
    assert (forall j, 0 <= j ->
              getbit (init ++ [Z.land wl (Z.ones (k mod 32))]) j
              = getbit (init ++ [wl]) j
                && ((j / 32 <? Z.of_nat (length init)) || (j mod 32 <? k mod 32)))
      as Hbits.
    { intros j Hj. rewrite !getbit_nth, !nth_lookup by done.
      assert (0 <= j / 32) by (Z.div_mod_to_equations; lia).
      assert (0 <= j mod 32 < 32) by (apply Z.mod_pos_bound; lia).
      destruct (Z.ltb_spec (j / 32) (Z.of_nat (length init))) as [Hlt|Hge].
      - rewrite !lookup_app_l by lia. simpl. by rewrite andb_true_r.
      - simpl. destruct (Z.eq_dec (j / 32) (Z.of_nat (length init))) as [Heq|Hne].
        + replace (Z.to_nat (j / 32)) with (length init) by lia.
          rewrite !list_lookup_middle by done. simpl.
          by rewrite Z.land_spec, Z.testbit_ones_nonneg by lia.
        + rewrite !lookup_ge_None_2 by (rewrite length_app; simpl; lia).
          simpl. by rewrite Z.bits_0. }
    split; [|split].
    + intros j Hj. rewrite !Test_getbit, Hbits by (done || lia). simpl.
      destruct (Z.ltb_spec j k); [|lia]. simpl.
      destruct (Z.ltb_spec (j / 32) (Z.of_nat (length init))) as [|Hge];
        [by rewrite andb_true_r|].
      destruct (Z.ltb_spec (j mod 32) (k mod 32)); [by rewrite andb_true_r|].
      Z.div_mod_to_equations. lia.
    + intros _ j Hj. simpl in *. rewrite Hbits by lia.
      destruct (Z.ltb_spec (j / 32) (Z.of_nat (length init)));
        [Z.div_mod_to_equations; lia|].
      destruct (Z.ltb_spec (j mod 32) (k mod 32)); [|apply andb_false_r].
      unfold getbit. rewrite index_None_ge; [done|].
      rewrite widx_div, length_app. simpl. Z.div_mod_to_equations. lia.
    + rewrite cleanLastWord_odd by (done || rewrite wordsNeeded_ceil; unfold maxLen; lia).
      by rewrite <- Z.land_assoc, Z.land_diag.
Qed.

Lemma cleanLastWord_masks_witness :
  wf (mkBitset 33 [5; 257]) /\
  exists s', cleanLastWord (mkBitset 33 [5; 257]) = Some s' /\ Len s' = 33
             /\ Test s' 32 = Test (mkBitset 33 [5; 257]) 32 /\ padding_zero s'.
Proof.
  assert (wf (mkBitset 33 [5; 257])) as Hwf by (apply wfb_wf; reflexivity).
  split; [exact Hwf|].
  destruct (cleanLastWord_masks _ Hwf) as (s' & Hc & _ & Hl & Ht & Hp & _).
  exists s'. split; [exact Hc|]. split; [exact Hl|]. split.
  - apply Ht. simpl. lia.
  - apply Hp. simpl. lia.
Defined.

(** ** Counting bits *)

Lemma count_bits_half k x :
  count_bits k (x / 2) + Z.b2z (Z.testbit x 0) = count_bits (S k) x.
Proof.
  induction k as [|k IH]; [simpl; lia|].
  change (count_bits (S k) (x / 2))
    with (count_bits k (x / 2) + Z.b2z (Z.testbit (x / 2) (Z.of_nat k))).
  change (count_bits (S (S k)) x)
    with (count_bits (S k) x + Z.b2z (Z.testbit x (Z.of_nat (S k)))).
  rewrite <- IH. change 2 with (2 ^ 1) at 2.
  rewrite Z.div_pow2_bits by lia.
  replace (Z.of_nat k + 1) with (Z.of_nat (S k)) by lia. lia.
Qed.

Lemma dsum2_count_bits k : forall x, dsum 2 k x = count_bits k x.
Proof.
  induction k as [|k IH]; intros x; [done|].
  cbn [dsum]. rewrite IH, <- count_bits_half, <- Z.bit0_mod. lia.
Qed.

Lemma count_bits_range k x : 0 <= count_bits k x <= Z.of_nat k.
Proof.
  induction k as [|k IH]; [simpl; lia|]. cbn [count_bits].
  destruct (Z.testbit x (Z.of_nat k)); simpl; lia.
Qed.

Lemma count_bits_ext k v w :
  (forall m : nat, (m < k)%nat -> Z.testbit v (Z.of_nat m) = Z.testbit w (Z.of_nat m)) ->
  count_bits k v = count_bits k w.
Proof.
  induction k as [|k IH]; intros H; [done|]. cbn [count_bits].
  rewrite IH by (intros; apply H; lia). by rewrite (H k) by lia.
Qed.

(** Two words that differ at most at bit [p]. *)
Lemma count_bits_change (k p : nat) v w :
  (p < k)%nat ->
  (forall m : nat, m <> p -> Z.testbit v (Z.of_nat m) = Z.testbit w (Z.of_nat m)) ->
  count_bits k v
  = count_bits k w - Z.b2z (Z.testbit w (Z.of_nat p)) + Z.b2z (Z.testbit v (Z.of_nat p)).
Proof.
  intros Hp H. induction k as [|k IH]; [lia|]. cbn [count_bits].
  destruct (Nat.eq_dec p k) as [->|Hne].
  - rewrite (count_bits_ext k v w) by (intros; apply H; lia). lia.
  - rewrite IH, (H k) by lia. lia.
Qed.

Lemma popCount_count_bits x : is_word x -> popCountUint32 x = count_bits 32 x.
Proof.
  intros Hx. rewrite popCountUint32_bitcount by done. apply dsum2_count_bits.
Qed.

(** X18: on every [uint32] word, the word-parallel [popCountUint32]
    returns the number of set bits among the 32 positions, a number
    between 0 and 32. *)
Theorem popCountUint32_counts_bits (x : Z) :
  is_word x ->
  popCountUint32 x = count_bits 32 x /\ 0 <= popCountUint32 x <= 32.
Proof.
  intros Hx. rewrite popCount_count_bits by done.
  split; [done | apply (count_bits_range 32)].
Qed.

Lemma popCountUint32_counts_bits_witness :
  is_word 0xF0F00001 /\ popCountUint32 0xF0F00001 = 9
  /\ count_bits 32 0xF0F00001 = 9.
Proof.
  assert (is_word 0xF0F00001) as Hx by (unfold is_word; lia).
  split; [exact Hx|]. split; [|reflexivity].
  destruct (popCountUint32_counts_bits _ Hx) as [-> _]. reflexivity.
Defined.

Lemma total_insert (l : list Z) :
  forall (k : nat) w v,
    l !! k = Some w ->
    total (<[k := v]> l) = total l - popCountUint32 w + popCountUint32 v.
Proof.
  induction l as [|x l IH]; intros [|k] w v Hk; simpl in *; try done.
  - injection Hk as ->. lia.
  - rewrite (IH k w v Hk). lia.
Qed.

Lemma total_zeros (k : nat) : total (replicate k 0) = 0.
Proof. induction k as [|k IH]; [done|]. simpl. by rewrite IH. Qed.

Lemma Count_grow s i :
  wf s -> n s <= i < maxLen -> total (b (grow s i)) = total (b s).
Proof.
  intros Hwf Hi. destruct (grow_spec s i Hwf Hi) as (_ & _ & k & ->).
  rewrite total_app, total_zeros. lia.
Qed.

(** The count after the word [w] that holds bit [i] became [v], which
    differs from it at most at that bit. *)
Lemma Count_update s i w v :
  wf s -> 0 <= i < n s -> index (b s) (widx i) = Some w -> is_word v ->
  (forall m, 0 <= m -> m <> i mod 32 -> Z.testbit v m = Z.testbit w m) ->
  Count (mkBitset (n s) (<[Z.to_nat (widx i) := v]> (b s)))
  = Count s - Z.b2z (Z.testbit w (i mod 32)) + Z.b2z (Z.testbit v (i mod 32)).
Proof.
  intros Hwf Hi Hw Hv Hbits.
  apply index_Some_range in Hw as Hr. rewrite index_lookup in Hw by done.
  assert (is_word w) as Hword by (by eapply Forall_lookup_1; [apply (wf_words s Hwf)|]).
  rewrite !Count_total by (done || by apply wf_update). simpl.
  rewrite (total_insert _ _ w v Hw), !popCount_count_bits by done.
  assert (0 <= i mod 32 < 32) as Hm by (apply Z.mod_pos_bound; lia).
  rewrite (count_bits_change 32 (Z.to_nat (i mod 32)) v w); [| lia |].
  - rewrite Z2Nat.id by lia. lia.
  - intros m Hne. apply Hbits; lia.
Qed.

(** X19: [Set] raises the count by one when bit [i] was not stored and
    leaves it unchanged when it was; with no bit stored past the length,
    the stored bit is the one that [Test] reads. *)
Theorem Set_Count (s : Bitset) (i : Z) :
  wf s -> 0 <= i < maxLen ->
  exists s',
    Set_ s i = Some s'
    /\ Count s' = Count s + (if getbit (b s) i then 0 else 1)
    /\ (padding_zero s -> Test s i = Some (getbit (b s) i)).
Proof.
  intros Hwf Hi. unfold Set_.
  set (s1 := if n s <=? i then grow s i else s).
  assert (wf s1 /\ i < n s1 /\ Count s1 = Count s
          /\ getbit (b s1) i = getbit (b s) i) as (Hwf1 & Hn1 & Hc1 & Hb1).
  { subst s1. destruct (Z.leb_spec (n s) i).
    - destruct (grow_spec s i Hwf) as (Hg & Hng & _); [lia|].
      split; [done|]. split; [lia|]. split.
      + rewrite !Count_total by done. apply Count_grow; done || lia.
      + apply grow_bits; done || lia.
    - done. }
  destruct (wf_index s1 i Hwf1) as (w & Hw & Hword & Hst); [lia|].
  rewrite Hw. simpl. rewrite Hst. simpl. eexists. split; [done|].
  split; [|intros Hpad; apply Test_padding_zero; done || lia].
  rewrite (Count_update s1 i w) ; [| done | lia | done | |].
  - rewrite testbit_set, Hc1, <- Hb1 by lia. unfold getbit. rewrite Hw.
    destruct (Z.testbit w (i mod 32)); simpl; lia.
  - apply is_word_lor; [done | apply is_word_mask; lia].
  - intros m Hm Hne. rewrite Z.lor_spec, testbit_mask by lia.
    destruct (Z.eqb_spec (i mod 32) m) as [?|_]; [lia | apply orb_false_r].
Qed.

Lemma Set_Count_witness :
  wf (mkBitset 40 [7; 129]) /\ 0 <= 3 < maxLen /\
  exists s', Set_ (mkBitset 40 [7; 129]) 3 = Some s' /\ Count s' = 6.
Proof.
  assert (wf (mkBitset 40 [7; 129])) as Hwf by (apply wfb_wf; reflexivity).
  assert (0 <= 3 < maxLen) as Hi by (unfold maxLen; lia).
  split; [exact Hwf|]. split; [exact Hi|].
  destruct (Set_Count _ 3 Hwf Hi) as (s' & HS & Hc & _).
  exists s'. split; [exact HS|]. rewrite Hc. reflexivity.
Defined.

(** X20: [Clear] below the length lowers the count by one when bit [i]
    tested true and leaves it unchanged when it tested false. *)
Theorem Clear_Count (s : Bitset) (i : Z) :
  wf s -> 0 <= i < Len s ->
  exists s' t,
    Clear s i = Some s' /\ Test s i = Some t
    /\ Count s' = Count s - (if t then 1 else 0).
Proof.
  unfold Len. intros Hwf Hi. unfold Clear.
  destruct (Z.leb_spec (n s) i); [lia|].
  destruct (wf_index s i Hwf Hi) as (w & Hw & Hword & Hst).
  rewrite Hw. simpl. rewrite Hst. simpl.
  exists (mkBitset (n s) (<[Z.to_nat (widx i) := andnot w (mask i)]> (b s))),
    (Z.testbit w (i mod 32)).
  split; [done|]. split.
  - destruct (Test_index s i Hwf Hi) as (w' & Hw' & ->). congruence.
  - assert (0 <= i mod 32 < 32) as Hm by (apply Z.mod_pos_bound; lia).
    rewrite (Count_update s i w); [| done | lia | done | |].
    + unfold andnot. rewrite Z.ldiff_spec, testbit_mask, Z.eqb_refl by lia.
      destruct (Z.testbit w (i mod 32)); simpl; lia.
    + by apply is_word_andnot.
    + intros m Hm' Hne. unfold andnot. rewrite Z.ldiff_spec, testbit_mask by lia.
      destruct (Z.eqb_spec (i mod 32) m) as [?|_]; [lia | apply andb_true_r].
Qed.

Lemma Clear_Count_witness :
  wf (mkBitset 40 [7; 129]) /\ 0 <= 1 < Len (mkBitset 40 [7; 129]) /\
  exists s', Clear (mkBitset 40 [7; 129]) 1 = Some s' /\ Count s' = 4.
Proof.
  assert (wf (mkBitset 40 [7; 129])) as Hwf by (apply wfb_wf; reflexivity).
  assert (0 <= 1 < Len (mkBitset 40 [7; 129])) as Hi by (simpl; lia).
  split; [exact Hwf|]. split; [exact Hi|].
  destruct (Clear_Count _ 1 Hwf Hi) as (s' & t & HC & Ht & Hc).
  exists s'. split; [exact HC|]. rewrite Hc.
  vm_compute in Ht. injection Ht as <-. reflexivity.
Defined.

(** ** Counts of the set-algebra results *)

Lemma count_bits_lor_land k x y :
  count_bits k (Z.lor x y) + count_bits k (Z.land x y)
  = count_bits k x + count_bits k y.
Proof.
  induction k as [|k IH]; [done|]. cbn [count_bits].
  rewrite Z.lor_spec, Z.land_spec.
  destruct (Z.testbit x (Z.of_nat k)), (Z.testbit y (Z.of_nat k)); simpl; lia.
Qed.

Lemma count_bits_lxor_land k x y :
  count_bits k (Z.lxor x y) + 2 * count_bits k (Z.land x y)
  = count_bits k x + count_bits k y.
Proof.
  induction k as [|k IH]; [done|]. cbn [count_bits].
  rewrite Z.lxor_spec, Z.land_spec.
  destruct (Z.testbit x (Z.of_nat k)), (Z.testbit y (Z.of_nat k)); simpl; lia.
Qed.

Lemma total_sorted (op : Z -> Z -> Z) (c0 : Z) (l : list Z) :
  (forall x y, is_word x -> is_word y ->
     popCountUint32 (op x y) + c0 * popCountUint32 (Z.land x y)
     = popCountUint32 x + popCountUint32 y) ->
  Forall is_word l ->
  forall k, Forall is_word k -> (length l <= length k)%nat ->
    total (zip_with op l k ++ drop (length l) k)
    + c0 * total (zip_with Z.land l k)
    = total l + total k.
Proof.
  intros Hop Hl. induction Hl as [|x l Hx _ IH]; intros k Hk Hlen.
  - simpl. rewrite drop_0. lia.
  - destruct Hk as [|y k Hy Hk]; [simpl in Hlen; lia|]. simpl in *.
    specialize (IH k Hk ltac:(lia)). pose proof (Hop x y Hx Hy). lia.
Qed.

(** X21: for well-formed bitsets of equal or different lengths, the counts
    of the union and of the intersection add up to the counts of the two
    operands, and so do the count of the symmetric difference and twice
    the count of the intersection. *)
Theorem Union_Intersection_count (a c : Bitset) :
  wf a -> wf c ->
  exists u i x,
    Union a c = Some u /\ Intersection a c = Some i
    /\ SymmetricDifference a c = Some x
    /\ Count u + Count i = Count a + Count c
    /\ Count x + 2 * Count i = Count a + Count c.
Proof.
  intros Ha Hc.
  destruct (Union a c) as [u|] eqn:Hu; [|by rewrite Union_spec in Hu].
  destruct (Intersection a c) as [i|] eqn:Hi;
    [|by rewrite Intersection_spec in Hi].
  destruct (SymmetricDifference a c) as [x|] eqn:Hx;
    [|by rewrite SymmetricDifference_spec in Hx].
  exists u, i, x. split; [done|]. split; [done|]. split; [done|].
  pose proof (Union_wf a c u Ha Hc Hu) as Hwu.
  pose proof (Intersection_wf a c i Ha Hc Hi) as Hwi.
  pose proof (SymmetricDifference_wf a c x Ha Hc Hx) as Hwx.
  rewrite (Count_total u), (Count_total i), (Count_total x),
    (Count_total a), (Count_total c) by done.
  clear Hwu Hwi Hwx.
  rewrite Union_spec in Hu by done. injection Hu as <-.
  rewrite Intersection_spec in Hi by done. injection Hi as <-.
  rewrite SymmetricDifference_spec in Hx by done. injection Hx as <-.
  assert (forall s ob, wf s -> wf ob -> n s <= n ob ->
    total (zip_with Z.lor (b s) (b ob) ++ drop (length (b s)) (b ob))
    + total (zip_with Z.land (b s) (b ob)) = total (b s) + total (b ob)
    /\ total (zip_with Z.lxor (b s) (b ob) ++ drop (length (b s)) (b ob))
       + 2 * total (zip_with Z.land (b s) (b ob)) = total (b s) + total (b ob))
    as Hsorted.
  { intros s ob Hs Hob Hle. pose proof (wf_mono_length s ob Hs Hob Hle). split.
    - assert (total (zip_with Z.lor (b s) (b ob) ++ drop (length (b s)) (b ob))
              + 1 * total (zip_with Z.land (b s) (b ob))
              = total (b s) + total (b ob)) as H1; [|lia].
      apply (total_sorted Z.lor 1 (b s));
        [| apply (wf_words s Hs) | apply (wf_words ob Hob) | done].
      intros x y Hx Hy.
      rewrite Z.mul_1_l, !popCount_count_bits
        by (done || by apply is_word_lor || by apply is_word_land).
      apply count_bits_lor_land.
    - apply (total_sorted Z.lxor 2 (b s));
        [| apply (wf_words s Hs) | apply (wf_words ob Hob) | done].
      intros x y Hx Hy.
      rewrite !popCount_count_bits
        by (done || by apply is_word_lxor || by apply is_word_land).
      apply count_bits_lxor_land. }
  unfold sortByLength. destruct (Z.leb_spec (n a) (n c)); simpl.
  - by apply Hsorted.
  - destruct (Hsorted c a) as [H1 H2]; [done | done | lia |]. lia.
Qed.

Lemma Union_Intersection_count_witness :
  wf (mkBitset 40 [7; 129]) /\ wf (mkBitset 3 [5]) /\
  exists u i,
    Union (mkBitset 40 [7; 129]) (mkBitset 3 [5]) = Some u
    /\ Intersection (mkBitset 40 [7; 129]) (mkBitset 3 [5]) = Some i
    /\ Count u + Count i = 7.
Proof.
  assert (wf (mkBitset 40 [7; 129])) as Ha by (apply wfb_wf; reflexivity).
  assert (wf (mkBitset 3 [5])) as Hc by (apply wfb_wf; reflexivity).
  split; [exact Ha|]. split; [exact Hc|].
  destruct (Union_Intersection_count _ _ Ha Hc) as (u & i & x & Hu & Hi & _ & Hsum & _).
  exists u, i. split; [exact Hu|]. split; [exact Hi|]. rewrite Hsum. reflexivity.
Defined.

(** ** The count of the complement *)

Lemma count_bits_not32 (k : nat) x :
  (k <= 32)%nat -> count_bits k (not32 x) = Z.of_nat k - count_bits k x.
Proof.
  induction k as [|k IH]; intros Hk; [done|]. cbn [count_bits].
  rewrite IH, testbit_not32 by lia.
  destruct (Z.testbit x (Z.of_nat k)); simpl; lia.
Qed.

Lemma count_bits_land_ones (k r : nat) x :
  (r <= k)%nat ->
  count_bits k (Z.land x (Z.ones (Z.of_nat r))) = count_bits r x.
Proof.
  intros Hr. induction k as [|k IH].
  - by replace r with 0%nat by lia.
  - destruct (Nat.eq_dec r (S k)) as [->|Hne].
    + apply count_bits_ext. intros m Hm.
      rewrite Z.land_spec, Z.testbit_ones_nonneg by lia.
      destruct (Z.ltb_spec (Z.of_nat m) (Z.of_nat (S k))); [apply andb_true_r | lia].
    + cbn [count_bits]. rewrite IH by lia.
      rewrite Z.land_spec, Z.testbit_ones_nonneg by lia.
      destruct (Z.ltb_spec (Z.of_nat k) (Z.of_nat r)); [lia|].
      rewrite andb_false_r. simpl. lia.
Qed.

Lemma total_not32 (l : list Z) :
  Forall is_word l ->
  total (map not32 l) = 32 * Z.of_nat (length l) - total l.
Proof.
  induction 1 as [|x l Hx _ IH]; [done|]. simpl.
  rewrite IH, !popCount_count_bits by (done || by apply is_word_not32).
  rewrite (count_bits_not32 32) by lia. lia.
Qed.

Lemma Complement_total a :
  wf a -> padding_zero a -> 0 < n a ->
  exists r, Complement a = Some r /\ wf r /\ Count r = n a - Count a.
Proof.
  intros Hwf Hpad Hpos.
  destruct (Complement_wf a Hwf) as (r & Hr & Hwfr & Hnr).
  exists r. split; [done|]. split; [done|].
  rewrite (Count_total r), (Count_total a) by done.
  pose proof Hwf as [Hn Hl Hw]. rewrite wordsNeeded_ceil in Hl by lia.
  unfold maxLen in Hn.
  destruct (Z.eq_dec (n a mod 32) 0) as [Hr0|Hr0].
  - rewrite Complement_even in Hr by done. injection Hr as <-. simpl.
    rewrite total_not32 by done. Z.div_mod_to_equations. lia.
  - destruct (wf_last a Hwf) as (init & wl & Hb).
    rewrite (Complement_odd a init wl) in Hr by done. injection Hr as <-.
    pose proof (padding_zero_clean a Hwf Hpad) as Hclean.
    destruct a as [k ws]. simpl in *. subst ws.
    rewrite length_app in Hl. simpl in Hl.
    pose proof (Z.mod_pos_bound k 32 ltac:(lia)) as Hrm.
    rewrite cleanLastWord_odd in Hclean
      by (unfold maxLen; lia || done || rewrite wordsNeeded_ceil; unfold maxLen; lia).
    injection Hclean as Hclean. apply app_inv_head in Hclean.
    injection Hclean as Hclean.
    apply Forall_app in Hw as [Hinit Hwl]. inversion Hwl as [|? ? Hword _]; subst.
    rewrite !total_app, total_not32 by done. simpl.
    rewrite (popCount_count_bits wl Hword).
    rewrite (popCount_count_bits (Z.land (not32 wl) (Z.ones (k mod 32))))
      by (apply is_word_land, is_word_not32; exact Hword).
    assert (count_bits 32 wl = count_bits (Z.to_nat (k mod 32)) wl) as ->.
    { rewrite <- (count_bits_land_ones 32 (Z.to_nat (k mod 32)) wl) by lia.
      rewrite Z2Nat.id by lia. by rewrite Hclean. }
    assert (count_bits 32 (Z.land (not32 wl) (Z.ones (k mod 32)))
            = k mod 32 - count_bits (Z.to_nat (k mod 32)) wl) as ->.
    { rewrite <- (Z2Nat.id (k mod 32)) at 1 by lia.
      rewrite count_bits_land_ones, count_bits_not32 by lia. lia. }
    Z.div_mod_to_equations. lia.
Qed.

(** X22: for a well-formed bitset of non-zero length with no bit stored
    past its length, the count of the complement is the length minus the
    count; in particular the count never exceeds the length. *)
Theorem Complement_Count (a : Bitset) :
  wf a -> padding_zero a -> 0 < Len a ->
  exists r, Complement a = Some r /\ Count r = Len a - Count a
            /\ 0 <= Count a <= Len a.
Proof.
  unfold Len. intros Hwf Hpad Hpos.
  destruct (Complement_total a Hwf Hpad Hpos) as (r & Hr & Hwfr & Heq).
  exists r. split; [done|]. split; [done|].
  rewrite (Count_total a) in * by done. rewrite (Count_total r) in Heq by done.
  pose proof (total_range _ (wf_words a Hwf)).
  pose proof (total_range _ (wf_words r Hwfr)). lia.
Qed.

Lemma Complement_Count_witness :
  wf (mkBitset 50 [1049600; 1024]) /\ padding_zero (mkBitset 50 [1049600; 1024])
  /\ 0 < Len (mkBitset 50 [1049600; 1024]) /\
  exists r, Complement (mkBitset 50 [1049600; 1024]) = Some r /\ Count r = 47.
Proof.
  assert (wf (mkBitset 50 [1049600; 1024])) as Ha by (apply wfb_wf; reflexivity).
  assert (padding_zero (mkBitset 50 [1049600; 1024])) as Hp
    by (apply padb_sound; reflexivity).
  assert (0 < Len (mkBitset 50 [1049600; 1024])) as Hl by (simpl; lia).
  split; [exact Ha|]. split; [exact Hp|]. split; [exact Hl|].
  destruct (Complement_Count _ Ha Hp Hl) as (r & Hr & Hc & _).
  exists r. split; [exact Hr|]. rewrite Hc. reflexivity.
Defined.

(** ** [None], [Any] and [All] *)

Lemma count_bits_zero k x :
  count_bits k x = 0 ->
  forall m : nat, (m < k)%nat -> Z.testbit x (Z.of_nat m) = false.
Proof.
  induction k as [|k IH]; intros H m Hm; [lia|]. cbn [count_bits] in H.
  pose proof (count_bits_range k x).
  destruct (Z.testbit x (Z.of_nat k)) eqn:Hk; simpl in H; [lia|].
  destruct (Nat.eq_dec m k) as [->|Hne]; [done|]. apply IH; lia.
Qed.

Lemma word_no_bits w :
  is_word w -> (forall m, 0 <= m < 32 -> Z.testbit w m = false) -> w = 0.
Proof.
  intros Hw H. apply is_word_bits in Hw as [_ Hhigh].
  apply Z.bits_inj'. intros m Hm. rewrite Z.bits_0.
  destruct (Z.lt_ge_cases m 32); [apply H; lia | by apply Hhigh].
Qed.

Lemma popCount_zero w : is_word w -> popCountUint32 w = 0 -> w = 0.
Proof.
  intros Hw H. rewrite popCount_count_bits in H by done.
  apply word_no_bits; [done|]. intros m Hm.
  rewrite <- (Z2Nat.id m) by lia. apply (count_bits_zero 32); [done | lia].
Qed.

Lemma total_zero_iff (l : list Z) :
  Forall is_word l -> total l = 0 <-> Forall (fun w => w = 0) l.
Proof.
  induction 1 as [|x l Hx Hl IH]; simpl; [done|].
  pose proof (popCountUint32_range x Hx) as Hpr.
  pose proof (total_range l Hl) as Htr.
  split.
  - intros Hsum. constructor; [apply popCount_zero; done || lia | apply IH; lia].
  - intros Hz. inversion Hz as [|? ? -> Hz']; subst.
    apply IH in Hz'. change (popCountUint32 0) with 0. lia.
Qed.

Lemma None_zero_iff (l : list Z) len0 :
  Forall is_word l ->
  None_ (mkBitset len0 l) = true <-> Forall (fun w => w = 0) l.
Proof.
  unfold None_. simpl. induction 1 as [|x l Hx Hl IH]; simpl; [done|].
  rewrite andb_true_iff, IH. unfold is_word in Hx. split.
  - intros [H0 Hz]. constructor; [|done].
    destruct (Z.ltb_spec 0 x); [done | lia].
  - intros Hz. inversion Hz as [|? ? -> Hz']; subst. done.
Qed.

Lemma zero_words_no_bits (l : list Z) j :
  Forall (fun w => w = 0) l -> 0 <= j -> getbit l j = false.
Proof.
  intros Hz Hj. rewrite getbit_nth, nth_lookup by done.
  destruct (l !! _) as [w|] eqn:Hw; simpl; [|apply Z.bits_0].
  rewrite (Forall_lookup_1 _ _ _ _ Hz Hw). apply Z.bits_0.
Qed.

Lemma no_bits_zero_words (l : list Z) :
  Forall is_word l -> (forall j, 0 <= j -> getbit l j = false) ->
  Forall (fun w => w = 0) l.
Proof.
  intros Hw H. apply Forall_lookup. intros k w Hk.
  apply word_no_bits; [by eapply Forall_lookup_1|]. intros m Hm.
  specialize (H (32 * Z.of_nat k + m) ltac:(lia)).
  rewrite getbit_nth, nth_lookup in H by lia.
  replace ((32 * Z.of_nat k + m) / 32) with (Z.of_nat k) in H
    by (Z.div_mod_to_equations; lia).
  replace ((32 * Z.of_nat k + m) mod 32) with m in H
    by (Z.div_mod_to_equations; lia).
  by rewrite Nat2Z.id, Hk in H.
Qed.

(** X23: on a well-formed bitset [None] holds exactly when the count is 0,
    and [Any] exactly when it is positive; when [None] holds every bit
    tests false, and with no bit stored past the length the converse holds
    too. *)
Theorem None_iff_Count_zero (s : Bitset) :
  wf s ->
  (None_ s = true <-> Count s = 0)
  /\ (Any s = true <-> 0 < Count s)
  /\ (None_ s = true -> forall j, 0 <= j -> Test s j = Some false)
  /\ (padding_zero s -> (forall j, 0 <= j -> Test s j = Some false) ->
      None_ s = true).
Proof.
  intros Hwf. pose proof (wf_words s Hwf) as Hw.
  assert (None_ s = true <-> Forall (fun w => w = 0) (b s)) as Hnone
    by (destruct s; by apply None_zero_iff).
  assert (None_ s = true <-> Count s = 0) as Hcount
    by (by rewrite Hnone, Count_total, total_zero_iff).
  split; [done|]. split; [|split].
  - unfold Any. pose proof (total_range _ Hw). rewrite <- (Count_total s) in * by done.
    destruct (None_ s); simpl; split; intros H1; try done.
    + assert (Count s = 0) by (by apply Hcount). lia.
    + destruct (Z.eq_dec (Count s) 0) as [H0|H0]; [|lia].
      apply Hcount in H0. done.
  - intros Hn j Hj. rewrite Test_getbit by done.
    rewrite zero_words_no_bits by (done || by apply Hnone).
    by rewrite andb_false_r.
  - intros Hpad Hall. apply Hnone, no_bits_zero_words; [done|].
    intros j Hj. specialize (Hall j Hj).
    rewrite Test_padding_zero in Hall by done. by injection Hall.
Qed.

Lemma None_iff_Count_zero_witness :
  wf (mkBitset 40 [0; 128]) /\
  None_ (mkBitset 40 [0; 128]) = false /\ 0 < Count (mkBitset 40 [0; 128])
  /\ Any (mkBitset 40 [0; 128]) = true.
Proof.
  assert (wf (mkBitset 40 [0; 128])) as Hwf by (apply wfb_wf; reflexivity).
  split; [exact Hwf|]. split; [reflexivity|].
  destruct (None_iff_Count_zero _ Hwf) as (_ & Hany & _).
  split; [apply Hany; reflexivity | reflexivity].
Defined.

(** X24: on a well-formed bitset with no bit stored past its length, [All]
    holds exactly when every bit below the length tests true. *)
Theorem All_iff_every_bit (s : Bitset) :
  wf s -> padding_zero s ->
  (All s = true <-> forall j, 0 <= j < Len s -> Test s j = Some true).
Proof.
  unfold Len, All. intros Hwf Hpad. pose proof (wf_n s Hwf) as Hn.
  rewrite Z.eqb_eq.
  destruct (Z.eq_dec (n s) 0) as [H0|H0].
  - split; [intros _ j Hj; lia|]. intros _. rewrite H0, Count_total by done.
    apply total_zero_iff; [apply (wf_words s Hwf)|].
    apply no_bits_zero_words; [apply (wf_words s Hwf)|].
    intros j Hj. apply Hpad. lia.
  - destruct (Complement_total s Hwf Hpad) as (r & Hr & Hwfr & Hc); [lia|].
    destruct (Complement_bits s Hwf) as (r1 & Hr1 & _ & Hn1 & Hb1).
    destruct (Complement_padding s Hwf) as (r2 & Hr2 & _ & Hp2); [lia|].
    assert (r1 = r) as -> by congruence. assert (r2 = r) as -> by congruence.
    assert (Count s = n s <-> Forall (fun w => w = 0) (b r)) as ->.
    { rewrite <- total_zero_iff, <- Count_total by (done || apply (wf_words r Hwfr)).
      lia. }
    split.
    + intros Hz j Hj. rewrite Test_getbit by (done || lia).
      pose proof (zero_words_no_bits (b r) j Hz ltac:(lia)) as Hbit.
      rewrite Hb1 in Hbit by done. apply negb_false_iff in Hbit. rewrite Hbit.
      by destruct (Z.ltb_spec j (n s)); [|lia].
    + intros Hall. apply no_bits_zero_words; [apply (wf_words r Hwfr)|].
      intros j Hj. destruct (Z.lt_ge_cases j (n s)) as [Hlt|Hge].
      * rewrite Hb1 by lia. specialize (Hall j ltac:(lia)).
        rewrite Test_getbit in Hall by done. injection Hall as Hall.
        apply andb_true_iff in Hall as [_ ->]. done.
      * apply Hp2. lia.
Qed.

Lemma All_iff_every_bit_witness :
  wf (mkBitset 3 [7]) /\ padding_zero (mkBitset 3 [7]) /\
  All (mkBitset 3 [7]) = true /\ Test (mkBitset 3 [7]) 2 = Some true.
Proof.
  assert (wf (mkBitset 3 [7])) as Hwf by (apply wfb_wf; reflexivity).
  assert (padding_zero (mkBitset 3 [7])) as Hp by (apply padb_sound; reflexivity).
  split; [exact Hwf|]. split; [exact Hp|]. split; [reflexivity|].
  apply (proj1 (All_iff_every_bit _ Hwf Hp)); [reflexivity | simpl; lia].
Defined.

(** ** A bitset combined with itself *)

Lemma zip_with_diag (op : Z -> Z -> Z) (l : list Z) :
  zip_with op l l = map (fun x => op x x) l.
Proof. induction l as [|x l IH]; simpl; [done | by rewrite IH]. Qed.

Lemma map_pointwise_id (f : Z -> Z) (l : list Z) :
  (forall x, f x = x) -> map f l = l.
Proof.
  intros Hf. induction l as [|x l IH]; simpl; [done | by rewrite Hf, IH].
Qed.

Lemma map_pointwise_zero (f : Z -> Z) (l : list Z) :
  (forall x, f x = 0) -> map f l = replicate (length l) 0.
Proof.
  intros Hf. induction l as [|x l IH]; simpl; [done | by rewrite Hf, IH].
Qed.

(** X25: combined with itself, a well-formed bitset gives itself under
    [Union] and [Intersection], and a bitset of the same length with no bit
    set under [Difference] and [SymmetricDifference]. *)
Theorem self_combinations (a : Bitset) :
  wf a ->
  Union a a = Some a /\ Intersection a a = Some a
  /\ Difference a a = Some (ClearAll a)
  /\ SymmetricDifference a a = Some (ClearAll a).
Proof.
  intros Hwf.
  rewrite Union_spec, Intersection_spec, Difference_spec,
    SymmetricDifference_spec by done.
  unfold sortByLength. destruct (Z.leb_spec (n a) (n a)); [|lia].
  rewrite !zip_with_diag, drop_all, !app_nil_r. unfold ClearAll.
  rewrite (map_pointwise_id _ _ Z.lor_diag), (map_pointwise_id _ _ Z.land_diag).
  unfold andnot.
  rewrite (map_pointwise_zero _ _ Z.ldiff_diag),
    (map_pointwise_zero _ _ Z.lxor_nilpotent).
  by destruct a.
Qed.

Lemma self_combinations_witness :
  wf (mkBitset 40 [7; 129]) /\
  Union (mkBitset 40 [7; 129]) (mkBitset 40 [7; 129]) = Some (mkBitset 40 [7; 129])
  /\ Difference (mkBitset 40 [7; 129]) (mkBitset 40 [7; 129])
     = Some (mkBitset 40 [0; 0]).
Proof.
  assert (wf (mkBitset 40 [7; 129])) as Hwf by (apply wfb_wf; reflexivity).
  split; [exact Hwf|].
  destruct (self_combinations _ Hwf) as (Hu & _ & Hd & _).
  split; [exact Hu | exact Hd].
Defined.

(** ** The word count for every length *)

(** X26: for every [uint32] length [wordsNeeded] returns at most
    [2^27 - 1]; it is [max(1, ceil(n / 32))] up to [2^32 - 32] and 0 for the
    lengths strictly between that and the greatest one. *)
Theorem wordsNeeded_cases (k : Z) :
  0 <= k <= MaxUint32 ->
  0 <= wordsNeeded k <= 134217727
  /\ (k <= maxLen -> wordsNeeded k = Z.max 1 ((k + 31) / 32))
  /\ (maxLen < k < MaxUint32 -> wordsNeeded k = 0)
  /\ (k = MaxUint32 -> wordsNeeded k = 134217727).
Proof.
  intros Hk. unfold MaxUint32, maxLen in *.
  split; [|split; [|split]].
  - unfold wordsNeeded, MaxUint32, lWord, lLog2Word.
    destruct (Z.eqb_spec k 0); [lia|].
    destruct (Z.eqb_spec k 4294967295); [done|].
    rewrite shr_div by lia. unfold u32. change (2 ^ 32) with 4294967296.
    change (2 ^ 5) with 32. Z.div_mod_to_equations. lia.
  - intros Hle. apply wordsNeeded_max. unfold maxLen. lia.
  - intros Hgt. unfold wordsNeeded, MaxUint32, lWord, lLog2Word.
    destruct (Z.eqb_spec k 0); [lia|].
    destruct (Z.eqb_spec k 4294967295); [lia|].
    rewrite shr_div by lia. unfold u32. change (2 ^ 32) with 4294967296.
    change (2 ^ 5) with 32. Z.div_mod_to_equations. lia.
  - by intros ->.
Qed.

Lemma wordsNeeded_cases_witness :
  0 <= 100 <= MaxUint32 /\ wordsNeeded 100 = 4.
Proof.
  assert (0 <= 100 <= MaxUint32) as Hk by (unfold MaxUint32; lia).
  split; [exact Hk|].
  destruct (wordsNeeded_cases 100 Hk) as (_ & Hc & _).
  rewrite Hc; [reflexivity | unfold maxLen; lia].
Defined.
